(** * Employee search system (app.py): tag-overlap search and record lifecycle

    A shallow embedding of [src/app.py]: the Firestore collection ['employees']
    is a finite map from document id to document, with the documents below
    it in a map from path to document; Python [set]s of tags are finite sets
    of strings, and the calls to Gemini, Firestore and Streamlit are threaded
    through a small state-and-exception monad. *)

From Stdlib Require Import Ascii.
From stdpp Require Import gmap strings list fin_maps sorting pretty.

Open Scope string_scope.
Open Scope nat_scope.

(** ** Data model *)

(** The value stored under ['updated_at']: the client sends the sentinel
    [firestore.SERVER_TIMESTAMP], the server replaces it by its own clock. *)
Inductive timestamp :=
  | SERVER_TIMESTAMP
  | At (t : nat).

(** The dict [data] built by [save_employee_data] (app.py:103-109) and read
    back by [doc.to_dict()] (app.py:125).  Every document of the collection is
    written by [save_employee_data], which sets all five keys, so a document
    is a record with the five fields: the default of [data.get('tags', [])]
    is never taken and [data['name']] never raises. *)
Record Doc := {
  doc_name : string;
  doc_description : string;
  doc_structured_description : string;
  doc_tags : list string;
  doc_updated_at : timestamp;
}.

(** One entry of [results] (app.py:133-139). *)
Record Result := {
  name : string;
  description : string;
  tags : list string;
  match_count : nat;
  matched_keywords : list string;
}.

(** ** Matcher: the loop and the sort of [search_employees_by_tags] *)

(** [results.sort(key=..., reverse=True)]: Python's list sort is stable, and
    [reverse=True] keeps the original order of entries with equal keys.  The
    entries are inserted last to first; [insert_desc] puts an entry in front
    of the first entry whose key is at most its own, so behind every entry
    with a greater key and in front of the later entries with its key. *)
Fixpoint insert_desc {A} (key : A → nat) (x : A) (l : list A) : list A :=
  match l with
  | [] => [x]
  | y :: l' =>
      if decide (key y ≤ key x) then x :: y :: l'
      else y :: insert_desc key x l'
  end.

Definition sort_desc {A} (key : A → nat) (l : list A) : list A :=
  foldr (insert_desc key) [] l.

(** The body of the [for doc in docs] loop (app.py:125-139): [Some] is the
    entry appended to [results], [None] a document that is skipped.
    [elements] stands for [list(match_tags)], whose order Python leaves to
    the hash table. *)
Definition match_doc (search_set : gset string) (data : Doc) : option Result :=
  let emp_tags : gset string := list_to_set (doc_tags data) in
  let match_tags := search_set ∩ emp_tags in
  let match_count := size match_tags in
  if decide (0 < match_count) then
    Some {| name := doc_name data;
            description := doc_description data;
            tags := doc_tags data;
            match_count := match_count;
            matched_keywords := elements match_tags |}
  else None.

(** [results] as the loop leaves it (app.py:121-139), before the sort. *)
Definition matches (search_tags : list string) (docs : list Doc) : list Result :=
  let search_set : gset string := list_to_set search_tags in
  omap (match_doc search_set) docs.

(** [rank]: lines 121-143 of [search_employees_by_tags], on the documents the
    stream yielded. *)
Definition rank (search_tags : list string) (docs : list Doc) : list Result :=
  sort_desc match_count (matches search_tags docs).

(** ** External collaborators and effects *)

(** A Python exception, with the text that [f"{e}"] prints. *)
Record Exception := { exn_message : string }.

(** A request sent to Gemini or Firestore. *)
Inductive request :=
  | generate_content (prompt : string)
  | document_set (path : list string) (data : Doc)
  | collection_stream.

(** A Streamlit call that renders something on the page. *)
Inductive st_call :=
  | st_spinner (text : string)
  | st_error (body : string)
  | st_success (body : string)
  | st_info (body : string)
  | st_warning (body : string)
  | st_subheader (body : string)
  | st_markdown (body : string)
  | st_write (body : string)
  | st_expander (label : string).

(** What the outside world does.  Requests are numbered in the order they are
    sent, from 0: [gemini n prompt] is the answer to request [n] when it is
    [model.generate_content(prompt)] followed by [response.text], either an
    exception or the text; [firestore_fault n] is the exception request [n]
    raises when it is a Firestore request, [None] when Firestore serves it;
    [server_clock n] is the server time when request [n] is served. *)
Record Env := {
  gemini : nat → string → Exception + string;
  firestore_fault : nat → option Exception;
  server_clock : nat → nat;
}.

(** The state the script acts on: the collection ['employees'] (document id
    to document), the documents of the sub-collections below it (document
    path to document), the requests sent so far and the page rendered so
    far, both oldest first. *)
Record World := {
  employees : gmap string Doc;
  subcollections : gmap (list string) Doc;
  requests : list request;
  page : list st_call;
}.

(** A computation either returns a value or raises. *)
Definition M (A : Type) : Type := Env → World → (Exception + A) * World.

#[global] Instance M_ret : MRet M := λ A a _ w, (inr a, w).

#[global] Instance M_bind : MBind M := λ A B k c env w,
  match c env w with
  | (inr a, w') => k a env w'
  | (inl e, w') => (inl e, w')
  end.

(** [try: c except Exception as e: h e] *)
Definition try_except {A} (c : M A) (h : Exception → M A) : M A := λ env w,
  match c env w with
  | (inr a, w') => (inr a, w')
  | (inl e, w') => h e env w'
  end.

Definition send (r : request) (w : World) : World :=
  {| employees := employees w; subcollections := subcollections w;
     requests := requests w ++ [r]; page := page w |}.

Definition render (c : st_call) (w : World) : World :=
  {| employees := employees w; subcollections := subcollections w;
     requests := requests w; page := page w ++ [c] |}.

(** A call [st.error(...)], [st.write(...)], ... *)
Definition st (c : st_call) : M unit := λ _ w, (inr (), render c w).

(** What an external request leaves in the collection. *)
Definition store (m : gmap string Doc) (w : World) : World :=
  {| employees := m; subcollections := subcollections w;
     requests := requests w; page := page w |}.

(** What an external request leaves below the collection. *)
Definition store_nested (m : gmap (list string) Doc) (w : World) : World :=
  {| employees := employees w; subcollections := m;
     requests := requests w; page := page w |}.

(** [model.generate_content(prompt)] and [response.text]. *)
Definition model_generate_content (prompt : string) : M string := λ env w,
  (gemini env (length (requests w)) prompt, send (generate_content prompt) w).

(** The server replaces the sentinel by its clock. *)
Definition resolve_timestamp (now : nat) (data : Doc) : Doc :=
  {| doc_name := doc_name data;
     doc_description := doc_description data;
     doc_structured_description := doc_structured_description data;
     doc_tags := doc_tags data;
     doc_updated_at :=
       match doc_updated_at data with
       | SERVER_TIMESTAMP => At now
       | At t => At t
       end |}.

(** [s.split(sep)] for a separator of one character. *)
Fixpoint split_on (sep : ascii) (s : string) : list string :=
  match s with
  | EmptyString => [""]
  | String c s' =>
      if decide (c = sep) then "" :: split_on sep s'
      else match split_on sep s' with
           | t :: ts => String c t :: ts
           | [] => [String c ""]
           end
  end.

(** The path of [db.collection('employees').document(id)]: the client joins
    the path of the collection and the id with ['/'] and splits the result on
    ['/'], so an id with a ['/'] is several path elements. *)
Definition document_path (id : string) : list string :=
  "employees" :: split_on "/" id.

(** The [ValueError] of the client for a path that is not a document path. *)
Definition invalid_document_path : Exception :=
  {| exn_message := "A document must have an even number of path elements" |}.

(** [db.collection('employees').document(id)] (app.py:101): a document path
    has an even number of elements (collection, document, collection,
    document, ...); for another path the client raises, and no request is
    sent. *)
Definition collection_document (id : string) : M (list string) := λ _ w,
  let path := document_path id in
  if Nat.even (length path) then (inr path, w)
  else (inl invalid_document_path, w).

(** Where a written document lands: a path of two elements is a document of
    the collection, under its id; a longer path is a document of a
    sub-collection, which the stream of the collection does not list. *)
Definition put_document (path : list string) (d : Doc) (w : World) : World :=
  match path with
  | [_; id] => store (<[id := d]> (employees w)) w
  | _ => store_nested (<[path := d]> (subcollections w)) w
  end.

(** [doc_ref.set(data)] (app.py:112): one document write, which creates the
    document or replaces it as a whole; a write that fails (the service is
    down, or it refuses the document) changes nothing. *)
Definition doc_ref_set (path : list string) (data : Doc) : M unit := λ env w,
  let n := length (requests w) in
  let w' := send (document_set path data) w in
  match firestore_fault env n with
  | Some e => (inl e, w')
  | None =>
      (inr (), put_document path (resolve_timestamp (server_clock env n) data) w')
  end.

(** The documents of the collection, one per document id, in the order the
    stream yields them: one enumeration of the collection, where Firestore
    has its own.  The properties of a search are stated for every order of
    the documents, or up to the order of the entries. *)
Definition list_all (m : gmap string Doc) : list Doc := (map_to_list m).*2.

(** [db.collection('employees').stream()], consumed by the [for] loop. *)
Definition employees_ref_stream : M (list Doc) := λ env w,
  let n := length (requests w) in
  let w' := send collection_stream w in
  match firestore_fault env n with
  | Some e => (inl e, w')
  | None => (inr (list_all (employees w')), w')
  end.

(** ** Common functions (app.py:54-143) *)

Definition tag_prompt (text : string) : string :=
  "
    以下のテキストから、職務経歴、スキル、特徴を表す重要なキーワードを5つから10個抽出してください。
    出力は、カンマ区切りの単語リストのみにしてください（例: Python, プロジェクトマネジメント, 営業, ...）。
    余計な文章は含めないでください。

    テキスト:
    " ++ text ++ "
    ".

Definition structure_prompt (text : string) : string :=
  "
    以下の社員紹介文を読んで、内容を最も適切に分類し、Markdown形式のリストで構造化してください。
    必ず以下の見出しを使用してください：- 職務経歴:, - スキル:, - その他特徴:
    分類が難しい情報や、上記に当てはまらない情報は「その他特徴」にまとめてください。
    分類した内容はその見出しの下に箇条書き（ハイフンとスペース）で記述してください。

    紹介文:
    " ++ text ++ "
    ".

(** [s.split(',')]: the pieces between the commas, at least one piece. *)
Fixpoint split_comma (s : string) : list string :=
  match s with
  | EmptyString => [""]
  | String c s' =>
      if decide (c = ","%char) then "" :: split_comma s'
      else match split_comma s' with
           | t :: ts => String c t :: ts
           | [] => [String c ""]
           end
  end.

(** The white space of [str.strip()], as UTF-8: U+0009-000D, U+001C-0020,
    then U+0085, U+00A0, then U+1680, U+2000-200A, U+2028, U+2029, U+202F,
    U+205F, U+3000. *)
Definition is_space1 (c : ascii) : bool :=
  let n := nat_of_ascii c in
  ((9 <=? n) && (n <=? 13)) || ((28 <=? n) && (n <=? 32)).

Definition is_space2 (c1 c2 : ascii) : bool :=
  (nat_of_ascii c1 =? 194) && ((nat_of_ascii c2 =? 133) || (nat_of_ascii c2 =? 160)).

Definition is_space3 (c1 c2 c3 : ascii) : bool :=
  let n1 := nat_of_ascii c1 in
  let n2 := nat_of_ascii c2 in
  let n3 := nat_of_ascii c3 in
  ((n1 =? 225) && (n2 =? 154) && (n3 =? 128))
  || ((n1 =? 226) && (n2 =? 128)
      && (((128 <=? n3) && (n3 <=? 138)) || (n3 =? 168) || (n3 =? 169) || (n3 =? 175)))
  || ((n1 =? 226) && (n2 =? 129) && (n3 =? 159))
  || ((n1 =? 227) && (n2 =? 128) && (n3 =? 128)).

(** Drops the white space at the front of [s]; with [back], [s] is a reversed
    string and the bytes of a character come last byte first. *)
Fixpoint skip_spaces (back : bool) (s : string) : string :=
  match s with
  | String c1 s1 =>
      if is_space1 c1 then skip_spaces back s1 else
      match s1 with
      | String c2 s2 =>
          if (if back then is_space2 c2 c1 else is_space2 c1 c2)
          then skip_spaces back s2 else
          match s2 with
          | String c3 s3 =>
              if (if back then is_space3 c3 c2 c1 else is_space3 c1 c2 c3)
              then skip_spaces back s3 else s
          | EmptyString => s
          end
      | EmptyString => s
      end
  | EmptyString => s
  end.

(** [t.strip()] *)
Definition strip (t : string) : string :=
  String.rev (skip_spaces true (String.rev (skip_spaces false t))).

(** [extract_tags_with_gemini] (app.py:54-73) *)
Definition extract_tags_with_gemini (text : string) : M (list string) :=
  let prompt := tag_prompt text in
  try_except
    (response_text ← model_generate_content prompt;
     let tags := strip <$> split_comma response_text in
     mret tags)
    (λ e,
       st (st_error ("Gemini API Error: " ++ exn_message e));;
       mret []).

(** [structure_description_with_gemini] (app.py:75-94) *)
Definition structure_description_with_gemini (text : string) : M string :=
  let prompt := structure_prompt text in
  try_except
    (response_text ← model_generate_content prompt;
     mret response_text)
    (λ e,
       st (st_error ("Gemini API Error (Structure): " ++ exn_message e));;
       mret "--- 構造化に失敗 ---").

(** [save_employee_data] (app.py:96-112): the employee name is given as the
    document id. *)
Definition save_employee_data
    (name description : string) (tags : list string)
    (structured_description : string) : M unit :=
  doc_ref ← collection_document name;
  let data :=
    {| doc_name := name;
       doc_description := description;
       doc_structured_description := structured_description;
       doc_tags := tags;
       doc_updated_at := SERVER_TIMESTAMP |} in
  doc_ref_set doc_ref data.

(** [search_employees_by_tags] (app.py:114-143) *)
Definition search_employees_by_tags (search_tags : list string) : M (list Result) :=
  docs ← employees_ref_stream;
  mret (rank search_tags docs).

(** ** The two pages (app.py:152-219) *)

(** Python's truth value of a [str]. *)
Definition truthy (s : string) : bool := bool_decide (s ≠ "").

Definition join (sep : string) (l : list string) : string := String.concat sep l.

(** The body of [with st.form("register_form")] once the widgets have been
    read (app.py:163-187). *)
Definition register_form (submitted : bool) (name_input desc_input : string) : M unit :=
  if submitted && truthy name_input && truthy desc_input then
    st (st_spinner "Geminiがテキストを解析中...");;
    extracted_tags ← extract_tags_with_gemini desc_input;
    structured_desc ← structure_description_with_gemini desc_input;
    st (st_subheader "🤖 AIが抽出したタグ");;
    save_employee_data name_input desc_input extracted_tags structured_desc;;
    st (st_success ("**" ++ name_input ++ "** さんの情報をデータベースに登録/更新しました！"));;
    st (st_markdown "---");;
    st (st_subheader "タグ付け結果");;
    st (st_write (join ", " extracted_tags));;
    st (st_subheader "構造化されたプロフィール (格納形式)");;
    st (st_markdown structured_desc);;
    save_employee_data name_input desc_input extracted_tags structured_desc;;
    st (st_success (name_input ++ " さんの情報をデータベースに登録しました！"))
  else mret ().

(** [for i, emp in enumerate(results)], from index [i]. *)
Fixpoint for_enumerate {A} (body : nat → A → M unit) (i : nat) (l : list A) : M unit :=
  match l with
  | [] => mret ()
  | x :: l' => body i x;; for_enumerate body (S i) l'
  end.

Definition show_result (i : nat) (emp : Result) : M unit :=
  st (st_expander ("#" ++ pretty (i + 1) ++ " " ++ name emp
                   ++ " (マッチ度: " ++ pretty (match_count emp) ++ ")"));;
  st (st_markdown ("**マッチしたキーワード:** `" ++ join ", " (matched_keywords emp) ++ "`"));;
  st (st_markdown ("**全タグ:** " ++ join ", " (tags emp)));;
  st (st_markdown "---");;
  st (st_write "**詳細プロフィール:**");;
  st (st_write (description emp)).

(** The search page after its widgets have been read (app.py:198-219). *)
Definition skill_search (search_btn : bool) (search_query : string) : M unit :=
  if search_btn && truthy search_query then
    st (st_spinner "Geminiが検索意図を解析し、DBと照合中...");;
    query_tags ← extract_tags_with_gemini search_query;
    st (st_info ("検索キーワード: " ++ join ", " query_tags));;
    results ← search_employees_by_tags query_tags;
    match results with
    | _ :: _ =>
        st (st_subheader ("マッチした社員: " ++ pretty (length results) ++ "名"));;
        for_enumerate show_result 0 results
    | [] => st (st_warning "条件に一致する社員は見つかりませんでした。")
    end
  else mret ().

(** ** Vocabulary of the properties *)

(** Two tag sequences with the same elements: what is left of a sequence once
    duplicates and order are forgotten. *)
Definition same_tags (l1 l2 : list string) : Prop :=
  list_to_set l1 =@{gset string} list_to_set l2.

(** Two documents for the same employee whose tags are the same set. *)
Definition doc_sim (d1 d2 : Doc) : Prop :=
  doc_name d1 = doc_name d2 ∧ doc_description d1 = doc_description d2
  ∧ same_tags (doc_tags d1) (doc_tags d2).

(** Two entries for the same employee with the same count and the same set of
    matched keywords. *)
Definition result_sim (r1 r2 : Result) : Prop :=
  name r1 = name r2 ∧ description r1 = description r2
  ∧ match_count r1 = match_count r2
  ∧ same_tags (matched_keywords r1) (matched_keywords r2).

(** Every document sits under the id that is its name: what holds of a
    collection that only [save_employee_data] writes to. *)
Definition keyed_by_name (m : gmap string Doc) : Prop :=
  ∀ id d, m !! id = Some d → doc_name d = id.

(** The document the server stores for a write at time [now]. *)
Definition stored (name description : string) (tags : list string)
    (structured_description : string) (now : nat) : Doc :=
  {| doc_name := name;
     doc_description := description;
     doc_structured_description := structured_description;
     doc_tags := tags;
     doc_updated_at := At now |}.

(** What [extract_tags_with_gemini] returns for a reply of the service. *)
Definition tags_of_reply (reply : Exception + string) : list string :=
  match reply with
  | inr response_text => strip <$> split_comma response_text
  | inl _ => []
  end.

(** What [structure_description_with_gemini] returns for a reply of the
    service. *)
Definition profile_of_reply (reply : Exception + string) : string :=
  match reply with
  | inr response_text => response_text
  | inl _ => "--- 構造化に失敗 ---"
  end.

(** What is rendered for a reply of the service: nothing, or the error. *)
Definition report (label : string) (reply : Exception + string) (w : World) : World :=
  match reply with
  | inr _ => w
  | inl e => render (st_error (label ++ exn_message e)) w
  end.

(** A computation that returns a value in every environment and world. *)
Definition never_raises {A} (c : M A) : Prop :=
  ∀ env w, ∃ a, (c env w).1 = inr a.

(** Several Streamlit calls in a row. *)
Definition render_all (cs : list st_call) (w : World) : World :=
  {| employees := employees w; subcollections := subcollections w;
     requests := requests w; page := page w ++ cs |}.

(** What [show_result] renders for the entry at index [i]. *)
Definition show_events (i : nat) (emp : Result) : list st_call :=
  [st_expander ("#" ++ pretty (i + 1) ++ " " ++ name emp
                ++ " (マッチ度: " ++ pretty (match_count emp) ++ ")");
   st_markdown ("**マッチしたキーワード:** `" ++ join ", " (matched_keywords emp) ++ "`");
   st_markdown ("**全タグ:** " ++ join ", " (tags emp));
   st_markdown "---";
   st_write "**詳細プロフィール:**";
   st_write (description emp)].

(** What [report] adds to the page. *)
Definition report_events (label : string) (reply : Exception + string) : list st_call :=
  match reply with
  | inr _ => []
  | inl e => [st_error (label ++ exn_message e)]
  end.

(** The two kinds of Firestore request. *)
Definition is_write (r : request) : bool :=
  match r with document_set _ _ => true | _ => false end.

Definition is_read (r : request) : bool :=
  match r with collection_stream => true | _ => false end.

(** The number of ['/'] of a document id: none for an id that is one path
    element, a document of the collection itself. *)
Fixpoint count_slashes (s : string) : nat :=
  match s with
  | EmptyString => 0
  | String c s' => (if decide (c = "/"%char) then 1 else 0) + count_slashes s'
  end.

(** The document stored at a path, in the collection or below it. *)
Definition document_at (w : World) (path : list string) : option Doc :=
  match path with
  | [_; id] => employees w !! id
  | _ => subcollections w !! path
  end.

(** Two entries for the same document: the same name, description, tags and
    count, and the same matched keywords in some order. *)
Definition entry_sim (r1 r2 : Result) : Prop :=
  name r1 = name r2 ∧ description r1 = description r2 ∧ tags r1 = tags r2
  ∧ match_count r1 = match_count r2
  ∧ matched_keywords r1 ≡ₚ matched_keywords r2.

(** The number of commas of a text. *)
Fixpoint count_commas (s : string) : nat :=
  match s with
  | EmptyString => 0
  | String c s' => (if decide (c = ","%char) then 1 else 0) + count_commas s'
  end.

(** The rest of [s] behind one white space character at its front, if there
    is one; with [back], [s] is a reversed string. *)
Definition leading_space (back : bool) (s : string) : option string :=
  match s with
  | String c1 s1 =>
      if is_space1 c1 then Some s1 else
      match s1 with
      | String c2 s2 =>
          if (if back then is_space2 c2 c1 else is_space2 c1 c2) then Some s2 else
          match s2 with
          | String c3 s3 =>
              if (if back then is_space3 c3 c2 c1 else is_space3 c1 c2 c3)
              then Some s3 else None
          | EmptyString => None
          end
      | EmptyString => None
      end
  | EmptyString => None
  end.

(** ** Sample data *)

Definition taro : Doc :=
  {| doc_name := "Taro";
     doc_description := "Python and AWS, then sales";
     doc_structured_description := "- スキル: Python, AWS";
     doc_tags := ["Python"; "AWS"; "Sales"];
     doc_updated_at := At 0 |}.

(** Taro again, the tags in another order and [AWS] twice. *)
Definition taro_noisy : Doc :=
  {| doc_name := "Taro";
     doc_description := "Python and AWS, then sales";
     doc_structured_description := "- スキル: Python, AWS";
     doc_tags := ["AWS"; "Sales"; "AWS"; "Python"];
     doc_updated_at := At 0 |}.

Definition hanako : Doc :=
  {| doc_name := "Hanako";
     doc_description := "Python";
     doc_structured_description := "- スキル: Python";
     doc_tags := ["Python"];
     doc_updated_at := At 1 |}.

Definition jiro : Doc :=
  {| doc_name := "Jiro";
     doc_description := "Java and Python";
     doc_structured_description := "- スキル: Java, Python";
     doc_tags := ["Java"; "Python"; "Java"];
     doc_updated_at := At 2 |}.

Definition empty_world : World :=
  {| employees := ∅; subcollections := ∅; requests := []; page := [] |}.

(** A collection that already holds Taro. *)
Definition taro_world : World :=
  {| employees := {["Taro" := taro]}; subcollections := ∅;
     requests := []; page := [] |}.

(** A collection of three. *)
Definition staff_world : World :=
  {| employees := <["Taro" := taro]> (<["Hanako" := hanako]> (<["Jiro" := jiro]> ∅));
     subcollections := ∅; requests := []; page := [] |}.

Definition quota_exceeded : Exception := {| exn_message := "429 quota exceeded" |}.

Definition unavailable : Exception := {| exn_message := "503 unavailable" |}.

(** Gemini answers, Firestore serves. *)
Definition all_up : Env :=
  {| gemini := λ _ _, inr "Python, AWS , Sales";
     firestore_fault := λ _, None;
     server_clock := λ n, 10 + n |}.

(** Gemini answers with one tag nobody has. *)
Definition asks_blockchain : Env :=
  {| gemini := λ _ _, inr "Blockchain";
     firestore_fault := λ _, None;
     server_clock := λ n, 10 + n |}.

(** Gemini answers with one tag Taro has and one nobody has. *)
Definition asks_aws : Env :=
  {| gemini := λ _ _, inr "AWS, Go";
     firestore_fault := λ _, None;
     server_clock := λ n, 10 + n |}.

(** Gemini answers with two tags: Jiro has both, Taro and Hanako the first. *)
Definition asks_python_java : Env :=
  {| gemini := λ _ _, inr "Python, Java";
     firestore_fault := λ _, None;
     server_clock := λ n, 10 + n |}.

(** Gemini answers, Firestore serves the first write of a registration and
    fails the second. *)
Definition second_write_down : Env :=
  {| gemini := λ _ _, inr "Java, Python";
     firestore_fault := λ n, if decide (n = 3) then Some unavailable else None;
     server_clock := λ n, 10 + n |}.

(** Gemini answers a first registration, then a second one. *)
Definition first_then_second : Env :=
  {| gemini := λ n _,
       if decide (n = 0) then inr "Sales, Osaka"
       else if decide (n = 1) then inr "- Sales"
       else if decide (n = 4) then inr "Go, Tokyo"
       else inr "- Go";
     firestore_fault := λ _, None;
     server_clock := λ n, 10 + n |}.

(** Gemini fails request 0, the extraction of a registration. *)
Definition extraction_down : Env :=
  {| gemini := λ n _, if decide (n = 0) then inl quota_exceeded else inr "- スキル: Java";
     firestore_fault := λ _, None;
     server_clock := λ n, 10 + n |}.


(** Gemini answers, Firestore fails every request. *)
Definition firestore_down : Env :=
  {| gemini := λ _ _, inr "Python, AWS , Sales";
     firestore_fault := λ _, Some unavailable;
     server_clock := λ n, 10 + n |}.

(** * Properties *)

(** ** The model at work *)

(** Scenario A of the specification. *)
Example rank_taro :
  rank ["Python"; "Java"] [taro]
  = [{| name := "Taro"; description := "Python and AWS, then sales";
        tags := ["Python"; "AWS"; "Sales"];
        match_count := 1; matched_keywords := ["Python"] |}].
Proof. reflexivity. Qed.

(** Jiro matches two tags and comes first; Taro and Hanako match one and
    stay in the order of the input. *)
Example rank_ties :
  name <$> rank ["Python"; "Java"] [taro; hanako; jiro] = ["Jiro"; "Taro"; "Hanako"]
  ∧ name <$> rank ["Python"; "Java"] [hanako; jiro; taro] = ["Jiro"; "Hanako"; "Taro"]
  ∧ match_count <$> rank ["Python"; "Java"] [taro; hanako; jiro] = [2; 1; 1].
Proof. by vm_compute. Qed.

Example split_strip :
  strip <$> split_comma " Python, AWS ,営業　,, a b" = ["Python"; "AWS"; "営業"; ""; "a b"].
Proof. reflexivity. Qed.

Example register_taro :
  let r := register_form true "Taro" "Java developer" all_up empty_world in
  r.1 = inr ()
  ∧ list_all (employees r.2)
    = [stored "Taro" "Java developer" ["Python"; "AWS"; "Sales"] "Python, AWS , Sales" 13]
  ∧ page r.2
    = [st_spinner "Geminiがテキストを解析中...";
       st_subheader "🤖 AIが抽出したタグ";
       st_success "**Taro** さんの情報をデータベースに登録/更新しました！";
       st_markdown "---";
       st_subheader "タグ付け結果";
       st_write "Python, AWS, Sales";
       st_subheader "構造化されたプロフィール (格納形式)";
       st_markdown "Python, AWS , Sales";
       st_success "Taro さんの情報をデータベースに登録しました！"].
Proof. by vm_compute. Qed.

(** Scenario B of the specification: no overlap is a warning, not an
    exception. *)
Example search_no_match :
  let r := skill_search true "blockchain engineers" asks_blockchain taro_world in
  r.1 = inr ()
  ∧ page r.2
    = [st_spinner "Geminiが検索意図を解析し、DBと照合中...";
       st_info "検索キーワード: Blockchain";
       st_warning "条件に一致する社員は見つかりませんでした。"].
Proof. by vm_compute. Qed.

Example search_match :
  let r := skill_search true "cloud and sales" all_up taro_world in
  r.1 = inr ()
  ∧ page r.2 !! 2 = Some (st_subheader "マッチした社員: 1名")
  ∧ page r.2 !! 3 = Some (st_expander "#1 Taro (マッチ度: 3)").
Proof. by vm_compute. Qed.

(** ** The descending stable sort *)

Section sort_desc.
Context {A : Type} (key : A → nat).

Lemma insert_desc_Permutation x l : insert_desc key x l ≡ₚ x :: l.
Proof.
  induction l as [|y l IH]; simpl; [done|].
  case_decide; [done|]. rewrite IH. apply Permutation_swap.
Qed.

Lemma sort_desc_Permutation l : sort_desc key l ≡ₚ l.
Proof.
  induction l as [|x l IH]; simpl; [done|].
  by rewrite insert_desc_Permutation, IH.
Qed.

Lemma insert_desc_sorted x l :
  StronglySorted (λ a b, key b ≤ key a) l →
  StronglySorted (λ a b, key b ≤ key a) (insert_desc key x l).
Proof.
  induction 1 as [|y l Hl IH Hy]; simpl.
  - repeat constructor.
  - case_decide as Hxy.
    + constructor; [by constructor|].
      constructor; [done|].
      eapply Forall_impl; [exact Hy|]. simpl. lia.
    + constructor; [done|].
      rewrite insert_desc_Permutation. constructor; [lia|done].
Qed.

Lemma sort_desc_sorted l : StronglySorted (λ a b, key b ≤ key a) (sort_desc key l).
Proof.
  induction l as [|x l IH]; simpl; [constructor|].
  by apply insert_desc_sorted.
Qed.

(** Stability: the entries with a given key come out in the order they
    went in. *)
Lemma insert_desc_filter c x l :
  filter (λ a, key a = c) (insert_desc key x l) = filter (λ a, key a = c) (x :: l).
Proof.
  induction l as [|y l IH]; simpl; [done|].
  case_decide as Hxy; [done|].
  rewrite filter_cons, IH, !filter_cons.
  repeat case_decide; try done; lia.
Qed.

Lemma sort_desc_filter c l :
  filter (λ a, key a = c) (sort_desc key l) = filter (λ a, key a = c) l.
Proof.
  induction l as [|x l IH]; simpl; [done|].
  rewrite insert_desc_filter, !filter_cons, IH. done.
Qed.

(** A sorted list is determined by its entries key by key, so any stable
    descending sort returns what [sort_desc] returns. *)
Lemma sorted_filter_inj l1 l2 :
  StronglySorted (λ a b, key b ≤ key a) l1 →
  StronglySorted (λ a b, key b ≤ key a) l2 →
  (∀ c, filter (λ a, key a = c) l1 = filter (λ a, key a = c) l2) →
  l1 = l2.
Proof.
  intros Hl1. revert l2.
  induction Hl1 as [|x l1 Hl1 IH Hx]; intros l2 Hl2 Hf.
  - destruct l2 as [|y l2]; [done|].
    specialize (Hf (key y)). by rewrite filter_nil, filter_cons_True in Hf.
  - destruct Hl2 as [|y l2 Hl2 Hy].
    { specialize (Hf (key x)). by rewrite filter_nil, filter_cons_True in Hf. }
    assert (key x ≤ key y) as Hxy.
    { assert (x ∈ filter (λ a, key a = key x) (y :: l2)) as Hin.
      { rewrite <-Hf, filter_cons_True by done. by left. }
      apply list_elem_of_filter in Hin as [_ Hin].
      apply elem_of_cons in Hin as [->|Hin]; [done|].
      by apply (proj1 (Forall_forall _ _) Hy). }
    assert (key y ≤ key x) as Hyx.
    { assert (y ∈ filter (λ a, key a = key y) (x :: l1)) as Hin.
      { rewrite Hf, filter_cons_True by done. by left. }
      apply list_elem_of_filter in Hin as [_ Hin].
      apply elem_of_cons in Hin as [->|Hin]; [done|].
      by apply (proj1 (Forall_forall _ _) Hx). }
    assert (x = y) as ->.
    { specialize (Hf (key x)).
      rewrite !filter_cons_True in Hf by lia. congruence. }
    f_equal. apply IH; [done|]. intros c. specialize (Hf c).
    rewrite !filter_cons in Hf. case_decide; congruence.
Qed.

Lemma sort_desc_unique l l' :
  StronglySorted (λ a b, key b ≤ key a) l' →
  (∀ c, filter (λ a, key a = c) l' = filter (λ a, key a = c) l) →
  l' = sort_desc key l.
Proof.
  intros Hl' Hf. apply sorted_filter_inj; [done|apply sort_desc_sorted|].
  intros c. by rewrite sort_desc_filter.
Qed.

(** The sort acts alike on two lists whose entries have the same keys. *)
Lemma insert_desc_Forall2 (R : A → A → Prop) x1 x2 l1 l2 :
  (∀ a b, R a b → key a = key b) →
  R x1 x2 → Forall2 R l1 l2 →
  Forall2 R (insert_desc key x1 l1) (insert_desc key x2 l2).
Proof.
  intros HR Hx. induction 1 as [|y1 y2 l1 l2 Hy Hl IH]; simpl.
  - by repeat constructor.
  - rewrite (HR _ _ Hx), (HR _ _ Hy).
    case_decide; repeat constructor; done.
Qed.

Lemma sort_desc_Forall2 (R : A → A → Prop) l1 l2 :
  (∀ a b, R a b → key a = key b) →
  Forall2 R l1 l2 → Forall2 R (sort_desc key l1) (sort_desc key l2).
Proof.
  intros HR. induction 1; simpl; [constructor|].
  by apply insert_desc_Forall2.
Qed.
End sort_desc.

(** ** The matcher *)

Lemma same_tags_elem_of l1 l2 : same_tags l1 l2 ↔ ∀ t, t ∈ l1 ↔ t ∈ l2.
Proof. unfold same_tags. set_solver. Qed.

Lemma same_tags_duplicate t l : t ∈ l → same_tags (t :: l) l.
Proof.
  rewrite same_tags_elem_of. intros Ht t'. rewrite elem_of_cons.
  split; [by intros [->|]|by right].
Qed.

Lemma same_tags_Permutation l1 l2 : l1 ≡ₚ l2 → same_tags l1 l2.
Proof. intros Hl. apply same_tags_elem_of. intros t. by rewrite Hl. Qed.

Lemma match_doc_Some s d r :
  match_doc s d = Some r ↔
    0 < size (s ∩ list_to_set (doc_tags d))
    ∧ r = {| name := doc_name d; description := doc_description d;
             tags := doc_tags d;
             match_count := size (s ∩ list_to_set (doc_tags d));
             matched_keywords := elements (s ∩ list_to_set (doc_tags d)) |}.
Proof.
  unfold match_doc. case_decide as Hs.
  - split; [by intros [= <-]|by intros [_ ->]].
  - split; [done|by intros [? _]].
Qed.

Lemma match_doc_None s d :
  match_doc s d = None ↔ s ∩ list_to_set (doc_tags d) = ∅.
Proof.
  unfold match_doc. case_decide as Hs.
  - split; [done|]. intros Hempty. rewrite Hempty, size_empty in Hs. lia.
  - split; [|done]. intros _. apply leibniz_equiv, size_empty_iff. lia.
Qed.

Lemma match_doc_empty_query d : match_doc (list_to_set []) d = None.
Proof. apply match_doc_None. apply (left_absorb_L _ _). Qed.

Lemma elem_of_rank q docs r :
  r ∈ rank q docs ↔ ∃ d, d ∈ docs ∧ match_doc (list_to_set q) d = Some r.
Proof.
  unfold rank, matches. rewrite sort_desc_Permutation.
  apply list_elem_of_omap.
Qed.

Lemma match_doc_sim q1 q2 d1 d2 :
  same_tags q1 q2 → doc_sim d1 d2 →
  option_Forall2 result_sim
    (match_doc (list_to_set q1) d1) (match_doc (list_to_set q2) d2).
Proof.
  unfold same_tags, match_doc. intros Hq (Hn & Hd & Ht).
  unfold same_tags in Ht. rewrite Hq, Ht.
  case_decide; constructor. by repeat split.
Qed.

Lemma matches_sim q1 q2 docs1 docs2 :
  same_tags q1 q2 → Forall2 doc_sim docs1 docs2 →
  Forall2 result_sim (matches q1 docs1) (matches q2 docs2).
Proof.
  unfold matches. intros Hq.
  induction 1 as [|d1 d2 l1 l2 Hd _ IH]; [constructor|]. csimpl.
  destruct (match_doc_sim q1 q2 d1 d2 Hq Hd); [by constructor|done].
Qed.

(** The entries with count [c] are the documents with overlap [c], in the
    order of the documents. *)
Lemma matches_filter q docs c :
  filter (λ r, match_count r = c) (matches q docs)
  = omap (match_doc (list_to_set q))
      (filter (λ d, size (list_to_set q ∩ list_to_set (doc_tags d) : gset string) = c) docs).
Proof.
  unfold matches. induction docs as [|d docs IH]; [done|].
  rewrite (filter_cons _ d docs). csimpl.
  destruct (match_doc _ d) as [r|] eqn:Hr.
  - pose proof Hr as [_ Hreq]%match_doc_Some.
    rewrite filter_cons, IH, Hreq. simpl.
    case_decide; [|done]. csimpl. by rewrite Hr, Hreq.
  - rewrite IH. case_decide; [|done]. csimpl. by rewrite Hr.
Qed.

(** C1: a document that shares a tag with a non-empty query has an entry in
    the output of [rank] that carries its name, description and tags, whose
    [match_count] is the size of the intersection of the two tag sets, hence
    at least 1, and whose [matched_keywords] list that intersection, each tag
    once. *)
Theorem rank_overlap_included (query_tags : list string) (docs : list Doc) (d : Doc) :
  query_tags ≠ [] →
  d ∈ docs →
  (∃ t, t ∈ query_tags ∧ t ∈ doc_tags d) →
  ∃ r, r ∈ rank query_tags docs
    ∧ name r = doc_name d ∧ description r = doc_description d ∧ tags r = doc_tags d
    ∧ match_count r
      = size (list_to_set query_tags ∩ list_to_set (doc_tags d) : gset string)
    ∧ 1 ≤ match_count r
    ∧ list_to_set (matched_keywords r)
      =@{gset string} list_to_set query_tags ∩ list_to_set (doc_tags d)
    ∧ NoDup (matched_keywords r)
    ∧ match_count r = length (matched_keywords r)
    ∧ (∀ t, t ∈ matched_keywords r ↔ t ∈ query_tags ∧ t ∈ doc_tags d).
Proof.
  intros _ Hd (t & Htq & Htd).
  set (X := list_to_set query_tags ∩ list_to_set (doc_tags d) : gset string).
  assert (0 < size X) as Hpos.
  { assert (t ∈ X) as HtX.
    { unfold X. by rewrite elem_of_intersection, !elem_of_list_to_set. }
    destruct (size X) eqn:HX; [|lia].
    apply size_empty_iff in HX. by apply HX in HtX. }
  eexists. split.
  { apply elem_of_rank. exists d. split; [done|]. by apply match_doc_Some. }
  simpl. fold X. split_and!; try done.
  - apply list_to_set_elements_L.
  - apply NoDup_elements.
  - intros t'. rewrite elem_of_elements. unfold X.
    by rewrite elem_of_intersection, !elem_of_list_to_set.
Qed.

Lemma rank_overlap_included_witness :
  ∃ r, r ∈ rank ["Python"; "Java"] [taro]
    ∧ name r = doc_name taro ∧ description r = doc_description taro
    ∧ tags r = doc_tags taro
    ∧ match_count r
      = size (list_to_set ["Python"; "Java"] ∩ list_to_set (doc_tags taro) : gset string)
    ∧ 1 ≤ match_count r
    ∧ list_to_set (matched_keywords r)
      =@{gset string} list_to_set ["Python"; "Java"] ∩ list_to_set (doc_tags taro)
    ∧ NoDup (matched_keywords r)
    ∧ match_count r = length (matched_keywords r)
    ∧ (∀ t, t ∈ matched_keywords r ↔ t ∈ ["Python"; "Java"] ∧ t ∈ doc_tags taro).
Proof.
  apply (rank_overlap_included ["Python"; "Java"] [taro] taro).
  - discriminate.
  - by left.
  - exists "Python". split; by left.
Defined.

(** C2: a document whose tags have an empty intersection with the query has
    no entry in the output of [rank], and leaving it out of the input changes
    nothing; with an empty query the output is empty, and the search returns
    that empty list as a value, without raising. *)
Theorem rank_disjoint_excluded :
  (∀ (query_tags : list string) (docs : list Doc) (d : Doc),
     list_to_set query_tags ∩ list_to_set (doc_tags d) =@{gset string} ∅ →
     (∀ r, r ∈ rank query_tags docs →
        ¬ (name r = doc_name d ∧ description r = doc_description d
           ∧ tags r = doc_tags d))
     ∧ (∀ pre post : list Doc, docs = (pre ++ d :: post)%list →
          rank query_tags docs = rank query_tags (pre ++ post)%list))
  ∧ (∀ docs, rank [] docs = [])
  ∧ (∀ env w, firestore_fault env (length (requests w)) = None →
       search_employees_by_tags [] env w = (inr [], send collection_stream w)).
Proof.
  split; [|split].
  - intros q docs d Hempty. split.
    + intros r (d' & _ & Hr)%elem_of_rank (_ & _ & Ht).
      apply match_doc_Some in Hr as [Hpos ->]. simpl in Ht.
      rewrite Ht, Hempty, size_empty in Hpos. lia.
    + intros pre post ->. unfold rank, matches.
      rewrite !omap_app. csimpl.
      by rewrite (proj2 (match_doc_None _ d) Hempty).
  - intros docs. unfold rank, matches.
    induction docs as [|d docs IH]; [done|]. csimpl.
    by rewrite match_doc_empty_query.
  - intros env w Hok.
    unfold search_employees_by_tags, employees_ref_stream, mbind, M_bind, mret, M_ret.
    rewrite Hok. f_equal. f_equal. unfold rank, matches.
    induction (list_all _) as [|d docs IH]; [done|]. csimpl.
    by rewrite match_doc_empty_query.
Qed.

Lemma rank_disjoint_excluded_witness :
  (∀ r, r ∈ rank ["Blockchain"] [taro; hanako] →
     ¬ (name r = doc_name taro ∧ description r = doc_description taro
        ∧ tags r = doc_tags taro))
  ∧ rank ["Blockchain"] [taro; hanako] = rank ["Blockchain"] [hanako]
  ∧ search_employees_by_tags [] all_up taro_world
    = (inr [], send collection_stream taro_world).
Proof.
  destruct rank_disjoint_excluded as (Habsent & _ & Hsearch).
  destruct (Habsent ["Blockchain"] [taro; hanako] taro) as [Hno Hdrop];
    [reflexivity|].
  split; [exact Hno|]. split.
  - apply (Hdrop [] [hanako]). reflexivity.
  - apply Hsearch. reflexivity.
Defined.

(** C3: the output of [rank] is sorted by [match_count], greatest first, and
    for every count the entries with that count are those of the documents
    with that overlap, in the order of the input documents. *)
Theorem rank_sorted_stable (query_tags : list string) (docs : list Doc) :
  StronglySorted (λ r1 r2, match_count r2 ≤ match_count r1) (rank query_tags docs)
  ∧ ∀ c,
      filter (λ r, match_count r = c) (rank query_tags docs)
      = omap (match_doc (list_to_set query_tags))
          (filter (λ d, size (list_to_set query_tags ∩ list_to_set (doc_tags d)
                              : gset string) = c) docs).
Proof.
  split.
  - apply sort_desc_sorted.
  - intros c. unfold rank. rewrite sort_desc_filter. apply matches_filter.
Qed.

(** C8: [rank] sees the query and the tags of a document as sets of exact
    strings: replacing them by sequences with the same elements (duplicates
    added or removed, another order) leaves the surviving employees, their
    counts and their sets of matched keywords as they were, position by
    position.  Strings match only when they are equal: the keywords of an
    entry are, each once, the strings that are a tag of the query and a tag
    of the document, and the count is their number; and when no tag of the
    query is equal to a tag of a document, whatever their number and
    however close the spelling, the output is empty. *)
Theorem rank_tags_as_sets :
  (∀ q1 q2 docs1 docs2,
     same_tags q1 q2 → Forall2 doc_sim docs1 docs2 →
     Forall2 result_sim (rank q1 docs1) (rank q2 docs2))
  ∧ (∀ q docs r,
       r ∈ rank q docs →
       NoDup (matched_keywords r)
       ∧ match_count r = length (matched_keywords r)
       ∧ (∀ t, t ∈ matched_keywords r ↔ t ∈ q ∧ t ∈ tags r))
  ∧ (∀ q docs,
       (∀ d t u, d ∈ docs → t ∈ q → u ∈ doc_tags d → t ≠ u) →
       rank q docs = []).
Proof.
  split_and!.
  - intros q1 q2 docs1 docs2 Hq Hdocs. unfold rank.
    apply sort_desc_Forall2; [by intros ?? (_ & _ & ? & _)|].
    by apply matches_sim.
  - intros q docs r (d & _ & Hr)%elem_of_rank.
    apply match_doc_Some in Hr as [_ ->]. simpl.
    split; [apply NoDup_elements|]. split; [done|].
    intros t. by rewrite elem_of_elements, elem_of_intersection, !elem_of_list_to_set.
  - intros q docs Hne. unfold rank, matches.
    assert (omap (match_doc (list_to_set q)) docs = []) as ->; [|done].
    induction docs as [|d docs IH]; [done|]. csimpl.
    rewrite (proj2 (match_doc_None _ d)).
    + apply IH. intros d' t u Hd'. apply Hne. by right.
    + apply leibniz_equiv. intros t. split; [|by intros ?%not_elem_of_empty].
      intros [Ht Hu]%elem_of_intersection.
      rewrite elem_of_list_to_set in Ht, Hu.
      destruct (Hne d t t); [by left|done..].
Qed.

Lemma rank_tags_as_sets_witness :
  Forall2 result_sim
    (rank ["Python"; "Java"; "Python"] [taro_noisy; hanako])
    (rank ["Java"; "Python"] [taro; hanako])
  ∧ rank ["python"; "JAVA"; " Python"; "Java "] [jiro; hanako] = []
  ∧ rank ["python"] [hanako] = [].
Proof.
  destruct rank_tags_as_sets as (Hsets & _ & Hexact).
  split; [|split].
  - apply Hsets; [reflexivity|].
    repeat constructor; reflexivity.
  - apply (Hexact ["python"; "JAVA"; " Python"; "Java "] [jiro; hanako]).
    intros d t u Hd Ht Hu.
    apply list_elem_of_In in Hd, Ht. simpl in Hd, Ht.
    destruct Hd as [<-|[<-|[]]]; apply list_elem_of_In in Hu; simpl in Hu;
      destruct Ht as [<-|[<-|[<-|[<-|[]]]]];
      repeat (destruct Hu as [<-|Hu]; [discriminate|]); destruct Hu.
  - apply (Hexact ["python"] [hanako]).
    intros d t u Hd Ht Hu.
    apply list_elem_of_In in Hd, Ht. simpl in Hd, Ht.
    destruct Hd as [<-|[]]. destruct Ht as [<-|[]].
    apply list_elem_of_In in Hu. simpl in Hu. destruct Hu as [<-|[]]. discriminate.
Defined.

(** ** The record store *)

Lemma keyed_by_name_empty : keyed_by_name ∅.
Proof. intros id d. by rewrite lookup_empty. Qed.

Lemma keyed_by_name_insert m d :
  keyed_by_name m → keyed_by_name (<[doc_name d := d]> m).
Proof.
  intros Hm id d'. rewrite lookup_insert. case_decide; [|by apply Hm].
  by intros [= <-].
Qed.

(** A collection keyed by name lists exactly one document for a name that
    has just been written. *)
Lemma list_all_insert_one m d :
  keyed_by_name m →
  length (filter (λ x, doc_name x = doc_name d) (list_all (<[doc_name d := d]> m))) = 1.
Proof.
  intros Hm. unfold list_all.
  rewrite <-insert_delete_eq.
  rewrite map_to_list_insert by apply lookup_delete_eq.
  rewrite fmap_cons, filter_cons_True by done. simpl. f_equal.
  apply length_zero_iff_nil.
  destruct (filter _ _) as [|x l] eqn:Hf; [done|].
  assert (x ∈ filter (λ x, doc_name x = doc_name d)
                (map_to_list (delete (doc_name d) m)).*2) as Hx.
  { rewrite Hf. by left. }
  apply list_elem_of_filter in Hx as [Hname Hx].
  apply list_elem_of_fmap in Hx as ([id d'] & -> & Hin).
  apply elem_of_map_to_list in Hin. simpl in Hname.
  apply lookup_delete_Some in Hin as [Hne Hin].
  apply Hm in Hin. congruence.
Qed.

(** *** Document paths *)

Lemma split_on_cons sep s : ∃ t ts, split_on sep s = t :: ts.
Proof.
  induction s as [|c s (t & ts & IH)]; simpl; [by eexists _, _|].
  case_decide; [by eexists _, _|]. rewrite IH. by eexists _, _.
Qed.

Lemma split_on_slash_length s : length (split_on "/" s) = S (count_slashes s).
Proof.
  induction s as [|c s IH]; simpl; [done|].
  case_decide; simpl; [by rewrite IH|].
  destruct (split_on_cons "/" s) as (t & ts & Hs). rewrite Hs in IH |- *. done.
Qed.

Lemma split_on_slash_plain s : count_slashes s = 0 → split_on "/" s = [s].
Proof.
  induction s as [|c s IH]; simpl; [done|].
  case_decide; [done|]. intros Hs. by rewrite IH.
Qed.

Lemma document_path_plain id :
  count_slashes id = 0 → document_path id = ["employees"; id].
Proof. intros Hid. unfold document_path. by rewrite split_on_slash_plain. Qed.

Lemma document_path_length id : length (document_path id) = 2 + count_slashes id.
Proof. unfold document_path. simpl. by rewrite split_on_slash_length. Qed.

(** A document path of two elements is the path of an id without ['/']. *)
Lemma document_path_nested id :
  count_slashes id ≠ 0 →
  ∀ c id', document_path id ≠ [c; id'].
Proof.
  intros Hid c id' Hpath. apply (f_equal length) in Hpath.
  rewrite document_path_length in Hpath. simpl in Hpath. lia.
Qed.

Lemma requests_put_document path d w : requests (put_document path d w) = requests w.
Proof. by destruct path as [|? [|? [|? ?]]]. Qed.

Lemma page_put_document path d w : page (put_document path d w) = page w.
Proof. by destruct path as [|? [|? [|? ?]]]. Qed.

(** What is stored depends on what was stored only. *)
Lemma employees_put_document path d w1 w2 :
  employees w1 = employees w2 →
  employees (put_document path d w1) = employees (put_document path d w2).
Proof. destruct path as [|? [|? [|? ?]]]; simpl; by intros ->. Qed.

Lemma subcollections_put_document path d w1 w2 :
  subcollections w1 = subcollections w2 →
  subcollections (put_document path d w1) = subcollections (put_document path d w2).
Proof. destruct path as [|? [|? [|? ?]]]; simpl; by intros ->. Qed.

(** A second write to a path replaces the first. *)
Lemma employees_put_put path d1 d2 w :
  employees (put_document path d2 (put_document path d1 w))
  = employees (put_document path d2 w).
Proof.
  destruct path as [|? [|? [|? ?]]]; simpl; try done. apply insert_insert_eq.
Qed.

Lemma subcollections_put_put path d1 d2 w :
  subcollections (put_document path d2 (put_document path d1 w))
  = subcollections (put_document path d2 w).
Proof.
  destruct path as [|? [|? [|? ?]]]; simpl; try done; apply insert_insert_eq.
Qed.

Lemma document_at_put_document path d w :
  document_at (put_document path d w) path = Some d.
Proof.
  destruct path as [|? [|? [|? ?]]]; simpl; apply lookup_insert_eq.
Qed.

Lemma save_employee_data_run name description tags structured_description env w :
  save_employee_data name description tags structured_description env w
  = let path := document_path name in
    let data := {| doc_name := name; doc_description := description;
                   doc_structured_description := structured_description;
                   doc_tags := tags; doc_updated_at := SERVER_TIMESTAMP |} in
    if Nat.even (length path) then
      match firestore_fault env (length (requests w)) with
      | Some e => (inl e, send (document_set path data) w)
      | None =>
          (inr (),
           put_document path
             (stored name description tags structured_description
                (server_clock env (length (requests w))))
             (send (document_set path data) w))
      end
    else (inl invalid_document_path, w).
Proof.
  unfold save_employee_data, collection_document, mbind, M_bind. cbv zeta.
  by destruct (Nat.even _).
Qed.

(** The write under a name without ['/']: a document of the collection. *)
Lemma save_employee_data_run_plain
    name description tags structured_description env w :
  count_slashes name = 0 →
  save_employee_data name description tags structured_description env w
  = let data := {| doc_name := name; doc_description := description;
                   doc_structured_description := structured_description;
                   doc_tags := tags; doc_updated_at := SERVER_TIMESTAMP |} in
    match firestore_fault env (length (requests w)) with
    | Some e => (inl e, send (document_set ["employees"; name] data) w)
    | None =>
        (inr (),
         store (<[name := stored name description tags structured_description
                            (server_clock env (length (requests w)))]> (employees w))
           (send (document_set ["employees"; name] data) w))
    end.
Proof.
  intros Hname. rewrite save_employee_data_run. cbv zeta.
  by rewrite (document_path_plain _ Hname).
Qed.




(** ** The calls to Gemini *)

Lemma extract_tags_with_gemini_run text env w :
  extract_tags_with_gemini text env w
  = let reply := gemini env (length (requests w)) (tag_prompt text) in
    (inr (tags_of_reply reply),
     report "Gemini API Error: " reply (send (generate_content (tag_prompt text)) w)).
Proof.
  unfold extract_tags_with_gemini, try_except, model_generate_content, mbind, M_bind.
  simpl. by destruct (gemini _ _ _).
Qed.

Lemma structure_description_with_gemini_run text env w :
  structure_description_with_gemini text env w
  = let reply := gemini env (length (requests w)) (structure_prompt text) in
    (inr (profile_of_reply reply),
     report "Gemini API Error (Structure): " reply
       (send (generate_content (structure_prompt text)) w)).
Proof.
  unfold structure_description_with_gemini, try_except, model_generate_content,
    mbind, M_bind.
  simpl. by destruct (gemini _ _ _).
Qed.

Lemma search_employees_by_tags_run search_tags env w :
  search_employees_by_tags search_tags env w
  = match firestore_fault env (length (requests w)) with
    | Some e => (inl e, send collection_stream w)
    | None => (inr (rank search_tags (list_all (employees w))), send collection_stream w)
    end.
Proof.
  unfold search_employees_by_tags, employees_ref_stream, mbind, M_bind. simpl.
  by destruct (firestore_fault _ _).
Qed.

Lemma requests_report label reply w : requests (report label reply w) = requests w.
Proof. by destruct reply. Qed.

Lemma employees_report label reply w : employees (report label reply w) = employees w.
Proof. by destruct reply. Qed.

Lemma bind_run {A B} (c : M A) (k : A → M B) env w :
  (c ≫= k) env w
  = match c env w with
    | (inr a, w') => k a env w'
    | (inl e, w') => (inl e, w')
    end.
Proof. reflexivity. Qed.

Lemma truthy_true s : s ≠ "" → truthy s = true.
Proof. intros. by apply bool_decide_eq_true. Qed.

Lemma subcollections_report label reply w :
  subcollections (report label reply w) = subcollections w.
Proof. by destruct reply. Qed.

(** Normalise the projections of a world that went through [send], [render],
    [store] and [report], and the request numbers. *)
Ltac norm_world H :=
  repeat first
    [ rewrite requests_report in H | rewrite employees_report in H
    | rewrite subcollections_report in H
    | rewrite requests_put_document in H | rewrite page_put_document in H
    | progress cbn [requests employees subcollections page render send store] in H ];
  rewrite ?length_app in H; cbn [length] in H;
  rewrite <-?Nat.add_assoc in H; cbn [Nat.add] in H.

Ltac norm_goal :=
  repeat first
    [ rewrite requests_report | rewrite employees_report
    | rewrite subcollections_report
    | rewrite requests_put_document | rewrite page_put_document
    | progress cbn [requests employees subcollections page render send store] ];
  rewrite ?length_app; cbn [length];
  rewrite <-?Nat.add_assoc; cbn [Nat.add].

(** Run the call at the head of the sequence in [H]: a Streamlit call, or a
    function with its run lemma. *)
Ltac run_st H := rewrite bind_run in H; unfold st at 1 in H; cbn beta iota in H.
Ltac run_call H lem := rewrite bind_run, lem in H; cbn beta iota zeta in H.

(** ** The registration workflow *)

Section register_form.
Context (name_input desc_input : string) (env : Env) (w : World).

Let n := length (requests w).
Let extracted_tags := tags_of_reply (gemini env n (tag_prompt desc_input)).
Let structured_desc := profile_of_reply (gemini env (n + 1) (structure_prompt desc_input)).
Let data :=
  {| doc_name := name_input; doc_description := desc_input;
     doc_structured_description := structured_desc;
     doc_tags := extracted_tags; doc_updated_at := SERVER_TIMESTAMP |}.
Let r := register_form true name_input desc_input env w.
Let path := document_path name_input.

(** The world when [save_employee_data] is first called. *)
Let w_save : World :=
  render (st_subheader "🤖 AIが抽出したタグ")
    (report "Gemini API Error (Structure): "
       (gemini env (n + 1) (structure_prompt desc_input))
       (send (generate_content (structure_prompt desc_input))
          (report "Gemini API Error: " (gemini env n (tag_prompt desc_input))
             (send (generate_content (tag_prompt desc_input))
                (render (st_spinner "Geminiがテキストを解析中...") w))))).

(** What is rendered between the two writes. *)
Let shown (w0 : World) : World :=
  render (st_markdown structured_desc)
    (render (st_subheader "構造化されたプロフィール (格納形式)")
       (render (st_write (join ", " extracted_tags))
          (render (st_subheader "タグ付け結果")
             (render (st_markdown "---")
                (render
                   (st_success ("**" ++ name_input
                                ++ "** さんの情報をデータベースに登録/更新しました！"))
                   w0))))).

(** The whole run of a submission with a name and a description: by the
    path of the name, and by what Firestore does with the two writes. *)
Lemma register_form_world :
  name_input ≠ "" → desc_input ≠ "" →
  r
  = if Nat.even (length path) then
      match firestore_fault env (n + 2) with
      | Some e => (inl e, send (document_set path data) w_save)
      | None =>
          let w1 :=
            shown (put_document path
                     (stored name_input desc_input extracted_tags structured_desc
                        (server_clock env (n + 2)))
                     (send (document_set path data) w_save)) in
          match firestore_fault env (n + 3) with
          | Some e => (inl e, send (document_set path data) w1)
          | None =>
              (inr (),
               render (st_success (name_input ++ " さんの情報をデータベースに登録しました！"))
                 (put_document path
                    (stored name_input desc_input extracted_tags structured_desc
                       (server_clock env (n + 3)))
                    (send (document_set path data) w1)))
          end
      end
    else (inl invalid_document_path, w_save).
Proof.
  intros Hname Hdesc.
  pose proof (eq_refl r) as Hr. unfold r at 2 in Hr. revert Hr. generalize r.
  intros r0 Hr.
  subst shown w_save path data structured_desc extracted_tags n.
  unfold register_form in Hr.
  rewrite (truthy_true _ Hname), (truthy_true _ Hdesc) in Hr. cbn [andb] in Hr.
  run_st Hr. run_call Hr extract_tags_with_gemini_run.
  run_call Hr structure_description_with_gemini_run.
  run_st Hr. run_call Hr save_employee_data_run. norm_world Hr.
  destruct (Nat.even (length (document_path name_input))) eqn:Heven; [|exact Hr].
  destruct (firestore_fault env (length (requests w) + 2)) as [e|]; [exact Hr|].
  cbn beta iota in Hr. do 6 run_st Hr.
  run_call Hr save_employee_data_run. rewrite Heven in Hr. norm_world Hr.
  destruct (firestore_fault env (length (requests w) + 3)) as [e|]; [exact Hr|].
  cbn beta iota in Hr. unfold st in Hr. exact Hr.
Qed.

Let ai_requests : list request :=
  [generate_content (tag_prompt desc_input);
   generate_content (structure_prompt desc_input)].

(** What the run leaves: the result, the documents and the requests. *)
Lemma register_form_run_path :
  name_input ≠ "" → desc_input ≠ "" →
  if Nat.even (length path) then
    match firestore_fault env (n + 2), firestore_fault env (n + 3) with
    | Some e, _ =>
        r.1 = inl e
        ∧ employees r.2 = employees w
        ∧ subcollections r.2 = subcollections w
        ∧ requests r.2 = (requests w ++ ai_requests ++ [document_set path data])%list
    | None, Some e =>
        let d := stored name_input desc_input extracted_tags structured_desc
                   (server_clock env (n + 2)) in
        r.1 = inl e
        ∧ employees r.2 = employees (put_document path d w)
        ∧ subcollections r.2 = subcollections (put_document path d w)
        ∧ requests r.2
          = (requests w ++ ai_requests
             ++ [document_set path data; document_set path data])%list
    | None, None =>
        let d := stored name_input desc_input extracted_tags structured_desc
                   (server_clock env (n + 3)) in
        r.1 = inr ()
        ∧ employees r.2 = employees (put_document path d w)
        ∧ subcollections r.2 = subcollections (put_document path d w)
        ∧ requests r.2
          = (requests w ++ ai_requests
             ++ [document_set path data; document_set path data])%list
        ∧ last (page r.2)
          = Some (st_success (name_input ++ " さんの情報をデータベースに登録しました！"))
    end
  else
    r.1 = inl invalid_document_path
    ∧ employees r.2 = employees w
    ∧ subcollections r.2 = subcollections w
    ∧ requests r.2 = (requests w ++ ai_requests)%list.
Proof.
  intros Hname Hdesc. rewrite (register_form_world Hname Hdesc).
  subst ai_requests shown w_save.
  destruct (Nat.even (length path)).
  - destruct (firestore_fault env (n + 2)) as [e|];
      [|cbv zeta; destruct (firestore_fault env (n + 3)) as [e|]];
      cbn [fst snd].
    + norm_goal. by rewrite <-!(assoc_L (++)).
    + norm_goal. split; [done|].
      split; [apply employees_put_document; by norm_goal|].
      split; [apply subcollections_put_document; by norm_goal|].
      by rewrite <-!(assoc_L (++)).
    + norm_goal. rewrite last_snoc. split; [done|].
      split.
      { etrans; [|apply (employees_put_put path (stored name_input desc_input
                  extracted_tags structured_desc (server_clock env (n + 2))))].
        apply employees_put_document. norm_goal.
        apply employees_put_document. by norm_goal. }
      split.
      { etrans; [|apply (subcollections_put_put path (stored name_input desc_input
                  extracted_tags structured_desc (server_clock env (n + 2))))].
        apply subcollections_put_document. norm_goal.
        apply subcollections_put_document. by norm_goal. }
      split; [|done]. by rewrite <-!(assoc_L (++)).
  - cbn [fst snd]. norm_goal. by rewrite <-!(assoc_L (++)).
Qed.
End register_form.

(** The run under a name without ['/'], a document of the collection. *)
Lemma register_form_run name_input desc_input env w :
  count_slashes name_input = 0 →
  name_input ≠ "" → desc_input ≠ "" →
  let n := length (requests w) in
  let extracted_tags := tags_of_reply (gemini env n (tag_prompt desc_input)) in
  let structured_desc :=
    profile_of_reply (gemini env (n + 1) (structure_prompt desc_input)) in
  let data :=
    {| doc_name := name_input; doc_description := desc_input;
       doc_structured_description := structured_desc;
       doc_tags := extracted_tags; doc_updated_at := SERVER_TIMESTAMP |} in
  let r := register_form true name_input desc_input env w in
  match firestore_fault env (n + 2), firestore_fault env (n + 3) with
  | Some e, _ =>
      r.1 = inl e
      ∧ employees r.2 = employees w
      ∧ requests r.2
        = (requests w ++ [generate_content (tag_prompt desc_input);
                          generate_content (structure_prompt desc_input);
                          document_set ["employees"; name_input] data])%list
  | None, Some e =>
      r.1 = inl e
      ∧ employees r.2
        = <[name_input := stored name_input desc_input extracted_tags structured_desc
                            (server_clock env (n + 2))]> (employees w)
      ∧ requests r.2
        = (requests w ++ [generate_content (tag_prompt desc_input);
                          generate_content (structure_prompt desc_input);
                          document_set ["employees"; name_input] data;
                          document_set ["employees"; name_input] data])%list
  | None, None =>
      r.1 = inr ()
      ∧ employees r.2
        = <[name_input := stored name_input desc_input extracted_tags structured_desc
                            (server_clock env (n + 3))]> (employees w)
      ∧ requests r.2
        = (requests w ++ [generate_content (tag_prompt desc_input);
                          generate_content (structure_prompt desc_input);
                          document_set ["employees"; name_input] data;
                          document_set ["employees"; name_input] data])%list
      ∧ last (page r.2)
        = Some (st_success (name_input ++ " さんの情報をデータベースに登録しました！"))
  end.
Proof.
  intros Hplain Hname Hdesc.
  pose proof (register_form_run_path name_input desc_input env w Hname Hdesc) as Hrun.
  cbv zeta in Hrun |- *.
  rewrite (document_path_plain _ Hplain) in Hrun. cbn [length Nat.even] in Hrun.
  destruct (firestore_fault env (length (requests w) + 2)),
    (firestore_fault env (length (requests w) + 3)); cbv zeta in Hrun.
  - destruct Hrun as (H1 & H2 & _ & H4). by split_and!.
  - destruct Hrun as (H1 & H2 & _ & H4). by split_and!.
  - destruct Hrun as (H1 & H2 & _ & H4). by split_and!.
  - destruct Hrun as (H1 & H2 & _ & H4 & H5). by split_and!.
Qed.


(** A document below the collection leaves the collection as it is. *)
Lemma put_document_nested path d w :
  length path ≠ 2 →
  put_document path d w = store_nested (<[path := d]> (subcollections w)) w.
Proof. by destruct path as [|? [|? [|? ?]]]. Qed.

(** What a write does to the collection, by the name. *)
Lemma employees_put_document_path id d w :
  employees (put_document (document_path id) d w)
  = if decide (count_slashes id = 0) then <[id := d]> (employees w) else employees w.
Proof.
  case_decide as Hid.
  - by rewrite (document_path_plain _ Hid).
  - rewrite put_document_nested; [done|]. rewrite document_path_length. lia.
Qed.

(** What a write puts in the collection is under the name of the record. *)
Lemma keyed_by_name_put_document d w :
  keyed_by_name (employees w) →
  keyed_by_name (employees (put_document (document_path (doc_name d)) d w)).
Proof.
  intros Hm. destruct (decide (count_slashes (doc_name d) = 0)) as [Hplain|Hnested].
  - rewrite (document_path_plain _ Hplain). by apply keyed_by_name_insert.
  - rewrite put_document_nested; [done|]. rewrite document_path_length. lia.
Qed.


(** C9: a submission whose name or description is empty (or a render
    without a submission) does nothing: the handler returns, no request is
    sent to Gemini or Firestore, the collection and the page stay as they
    were. *)
Theorem register_form_requires_input
    (submitted : bool) (name_input desc_input : string) (env : Env) (w : World) :
  submitted = false ∨ name_input = "" ∨ desc_input = "" →
  register_form submitted name_input desc_input env w = (inr (), w).
Proof.
  unfold register_form, truthy.
  intros [-> | [-> | ->]]; [done| |].
  - by rewrite andb_false_r.
  - by rewrite andb_false_r.
Qed.

Lemma register_form_requires_input_witness :
  register_form true "" "Java developer" all_up taro_world = (inr (), taro_world)
  ∧ register_form true "Taro" "" all_up taro_world = (inr (), taro_world).
Proof.
  split.
  - apply register_form_requires_input. right. left. reflexivity.
  - apply register_form_requires_input. right. right. reflexivity.
Defined.








(** ** Errors of the external calls *)

(** The search page up to the Firestore request. *)
Lemma skill_search_store_error search_query env w e :
  search_query ≠ "" →
  firestore_fault env (length (requests w) + 1) = Some e →
  let r := skill_search true search_query env w in
  r.1 = inl e ∧ employees r.2 = employees w.
Proof.
  intros Hq He r.
  pose proof (eq_refl r) as Hr. unfold r at 2 in Hr. clearbody r.
  unfold skill_search in Hr. rewrite (truthy_true _ Hq) in Hr. cbn [andb] in Hr.
  run_st Hr. run_call Hr extract_tags_with_gemini_run. run_st Hr.
  run_call Hr search_employees_by_tags_run. norm_world Hr.
  rewrite He in Hr. subst r. cbn [fst snd]. by norm_goal.
Qed.

(** C5, as stated, fails: with Firestore down, the exception of the write
    comes out of [save_employee_data] and the exception of the read out of
    [search_employees_by_tags], and nothing has been rendered. *)
Lemma store_error_not_caught :
  let r := save_employee_data "Taro" "Java developer" ["Java"] "- Java"
             firestore_down empty_world in
  let s := search_employees_by_tags ["Java"] firestore_down empty_world in
  r.1 = inl unavailable ∧ page r.2 = []
  ∧ s.1 = inl unavailable ∧ page s.2 = []
  ∧ ¬ never_raises (save_employee_data "Taro" "Java developer" ["Java"] "- Java")
  ∧ ¬ never_raises (search_employees_by_tags ["Java"]).
Proof.
  simpl. split_and!; try reflexivity.
  - intros H. by destruct (H firestore_down empty_world) as [a Ha].
  - intros H. by destruct (H firestore_down empty_world) as [a Ha].
Qed.

(** C5, amended: the two functions that call Gemini never raise, and render
    the error of a failed call; an exception of Firestore is not caught: it
    comes out of [save_employee_data] and of [search_employees_by_tags], and
    out of the page that called them, with nothing rendered by the function
    and the collection as it was before the call.  (Under a name that the
    client refuses as a document path the write is never sent, and the
    exception that comes out is the client's.) *)
Theorem external_errors :
  (∀ text, never_raises (extract_tags_with_gemini text))
  ∧ (∀ text, never_raises (structure_description_with_gemini text))
  ∧ (∀ text env w e,
       gemini env (length (requests w)) (tag_prompt text) = inl e →
       let r := extract_tags_with_gemini text env w in
       page r.2 = (page w ++ [st_error ("Gemini API Error: " ++ exn_message e)])%list
       ∧ employees r.2 = employees w)
  ∧ (∀ text env w e,
       gemini env (length (requests w)) (structure_prompt text) = inl e →
       let r := structure_description_with_gemini text env w in
       page r.2
       = (page w ++ [st_error ("Gemini API Error (Structure): " ++ exn_message e)])%list
       ∧ employees r.2 = employees w)
  ∧ (∀ name description tags structured_description env w e,
       firestore_fault env (length (requests w)) = Some e →
       let r := save_employee_data name description tags structured_description env w in
       r.1 = inl (if Nat.even (length (document_path name)) then e
                  else invalid_document_path)
       ∧ employees r.2 = employees w ∧ subcollections r.2 = subcollections w
       ∧ page r.2 = page w)
  ∧ (∀ search_tags env w e,
       firestore_fault env (length (requests w)) = Some e →
       let r := search_employees_by_tags search_tags env w in
       r.1 = inl e ∧ employees r.2 = employees w ∧ page r.2 = page w)
  ∧ (∀ name_input desc_input env w e,
       name_input ≠ "" → desc_input ≠ "" →
       firestore_fault env (length (requests w) + 2) = Some e →
       let r := register_form true name_input desc_input env w in
       r.1 = inl (if Nat.even (length (document_path name_input)) then e
                  else invalid_document_path)
       ∧ employees r.2 = employees w ∧ subcollections r.2 = subcollections w)
  ∧ (∀ search_query env w e,
       search_query ≠ "" →
       firestore_fault env (length (requests w) + 1) = Some e →
       let r := skill_search true search_query env w in
       r.1 = inl e ∧ employees r.2 = employees w).
Proof.
  split_and!.
  - intros text env w. rewrite extract_tags_with_gemini_run. by eexists.
  - intros text env w. rewrite structure_description_with_gemini_run. by eexists.
  - intros text env w e He. rewrite extract_tags_with_gemini_run. simpl.
    by rewrite He.
  - intros text env w e He. rewrite structure_description_with_gemini_run. simpl.
    by rewrite He.
  - intros name description tags sd env w e He.
    rewrite save_employee_data_run. cbv zeta.
    destruct (Nat.even _); [|done]. by rewrite He.
  - intros search_tags env w e He.
    rewrite search_employees_by_tags_run. by rewrite He.
  - intros name_input desc_input env w e Hname Hdesc He.
    pose proof (register_form_run_path name_input desc_input env w Hname Hdesc) as Hrun.
    rewrite He in Hrun. cbv zeta in Hrun |- *.
    destruct (Nat.even _); by destruct Hrun as (-> & -> & -> & _).
  - intros search_query env w e Hq He.
    by apply skill_search_store_error.
Qed.

Lemma external_errors_witness :
  (∃ tags, (extract_tags_with_gemini "Java developer" extraction_down empty_world).1
           = inr tags)
  ∧ (let r := save_employee_data "Taro" "Java now" ["Java"] "- Java"
                firestore_down taro_world in
     r.1 = inl unavailable ∧ employees r.2 = employees taro_world
     ∧ subcollections r.2 = subcollections taro_world
     ∧ page r.2 = page taro_world)
  ∧ (let r := search_employees_by_tags ["Python"] firestore_down taro_world in
     r.1 = inl unavailable ∧ employees r.2 = employees taro_world
     ∧ page r.2 = page taro_world)
  ∧ (let r := register_form true "Taro" "Java now" firestore_down taro_world in
     r.1 = inl unavailable ∧ employees r.2 = employees taro_world
     ∧ subcollections r.2 = subcollections taro_world).
Proof.
  destruct external_errors as (Hextract & _ & _ & _ & Hsave & Hsearch & Hform & _).
  split_and!.
  - apply Hextract.
  - apply (Hsave "Taro" "Java now" ["Java"] "- Java" firestore_down taro_world
             unavailable). reflexivity.
  - apply Hsearch. reflexivity.
  - apply (Hform "Taro" "Java now" firestore_down taro_world unavailable);
      [discriminate|discriminate|reflexivity].
Defined.

(** * Further properties of the matcher *)

Lemma size_list_to_set_le (l : list string) :
  size (list_to_set l : gset string) ≤ length l.
Proof.
  induction l as [|t l IH].
  - rewrite list_to_set_nil, size_empty. done.
  - rewrite list_to_set_cons, size_union_alt, size_singleton. simpl.
    pose proof (subseteq_size (list_to_set l ∖ {[t]}) (list_to_set l : gset string)) as Hle.
    specialize (Hle (subseteq_difference_l _ _ _ (reflexivity _))). lia.
Qed.

Lemma matches_names q docs : sublist (name <$> matches q docs) (doc_name <$> docs).
Proof.
  unfold matches. induction docs as [|d docs IH]; [done|]. csimpl.
  destruct (match_doc _ d) as [r|] eqn:Hr.
  - apply match_doc_Some in Hr as [_ ->]. csimpl. by constructor.
  - by constructor.
Qed.

Lemma list_all_names m :
  keyed_by_name m → doc_name <$> list_all m = (map_to_list m).*1.
Proof.
  intros Hm. unfold list_all. rewrite <-list_fmap_compose.
  apply list_fmap_ext. intros i [id d] Hin. simpl.
  apply list_elem_of_lookup_2, elem_of_map_to_list in Hin. by apply Hm.
Qed.

(** Every entry of the ranking has between one matched keyword and as many
    as the query or the document has tags, and lists them: each one once,
    each one a tag of the query and of the document; and there are at most
    as many entries as documents. *)
Theorem rank_match_count_bounds (query_tags : list string) (docs : list Doc) :
  (∀ r, r ∈ rank query_tags docs →
     1 ≤ match_count r
     ∧ match_count r ≤ length query_tags
     ∧ match_count r ≤ length (tags r)
     ∧ match_count r = length (matched_keywords r)
     ∧ NoDup (matched_keywords r)
     ∧ (∀ t, t ∈ matched_keywords r → t ∈ query_tags ∧ t ∈ tags r))
  ∧ length (rank query_tags docs) ≤ length docs.
Proof.
  split.
  - intros r (d & _ & Hr)%elem_of_rank.
    apply match_doc_Some in Hr as [Hpos ->]. simpl.
    set (X := list_to_set query_tags ∩ list_to_set (doc_tags d) : gset string) in *.
    split_and!; [lia| | |done|apply NoDup_elements|].
    + etrans; [|apply size_list_to_set_le].
      apply subseteq_size, intersection_subseteq_l.
    + etrans; [|apply size_list_to_set_le].
      apply subseteq_size, intersection_subseteq_r.
    + intros t [Hq Hd]%elem_of_elements%elem_of_intersection.
      by rewrite !elem_of_list_to_set in Hq, Hd.
  - unfold rank. rewrite sort_desc_Permutation.
    unfold matches.
    induction docs as [|d docs IH]; [done|]. csimpl.
    destruct (match_doc _ d); simpl; lia.
Qed.

(** The order in which the store yields the documents only matters among
    ties: two orders of the same documents give the same entries, and the
    same sequence of counts from first to last. *)
Theorem rank_stream_order (query_tags : list string) (docs1 docs2 : list Doc) :
  docs1 ≡ₚ docs2 →
  rank query_tags docs1 ≡ₚ rank query_tags docs2
  ∧ match_count <$> rank query_tags docs1 = match_count <$> rank query_tags docs2.
Proof.
  intros Hdocs.
  assert (rank query_tags docs1 ≡ₚ rank query_tags docs2) as Hperm.
  { unfold rank, matches. by rewrite !sort_desc_Permutation, Hdocs. }
  split; [done|].
  assert (AntiSymm (=) (λ a b : nat, b ≤ a)) as Hanti by (intros a b ??; lia).
  assert (Transitive (λ a b : nat, b ≤ a)) as Htrans by (intros a b c ??; lia).
  apply (StronglySorted_unique (λ a b : nat, b ≤ a)).
  - apply (StronglySorted_fmap match_count (λ r1 r2, match_count r2 ≤ match_count r1));
      [by intros ??|apply sort_desc_sorted].
  - apply (StronglySorted_fmap match_count (λ r1 r2, match_count r2 ≤ match_count r1));
      [by intros ??|apply sort_desc_sorted].
  - by rewrite Hperm.
Qed.

Lemma rank_stream_order_witness :
  rank ["Python"; "Java"] [taro; hanako; jiro]
    ≡ₚ rank ["Python"; "Java"] [jiro; hanako; taro]
  ∧ match_count <$> rank ["Python"; "Java"] [taro; hanako; jiro]
    = match_count <$> rank ["Python"; "Java"] [jiro; hanako; taro].
Proof.
  apply (rank_stream_order ["Python"; "Java"] [taro; hanako; jiro] [jiro; hanako; taro]).
  etrans; [apply Permutation_swap|].
  etrans; [apply perm_skip, Permutation_swap|].
  etrans; [apply Permutation_swap|]. done.
Defined.

(** In a collection keyed by name no employee is listed twice in a search
    result. *)
Theorem rank_names_unique (query_tags : list string) (m : gmap string Doc) :
  keyed_by_name m →
  NoDup (name <$> rank query_tags (list_all m)).
Proof.
  intros Hm.
  assert (name <$> rank query_tags (list_all m)
          ≡ₚ name <$> matches query_tags (list_all m)) as ->.
  { unfold rank. by rewrite sort_desc_Permutation. }
  eapply sublist_NoDup; [|apply matches_names].
  rewrite (list_all_names m Hm). apply NoDup_fst_map_to_list.
Qed.

Lemma rank_names_unique_witness :
  length (rank ["Python"; "Java"] (list_all (employees staff_world))) = 3
  ∧ NoDup (name <$> rank ["Python"; "Java"] (list_all (employees staff_world))).
Proof.
  split; [reflexivity|].
  apply (rank_names_unique ["Python"; "Java"] (employees staff_world)).
  apply (keyed_by_name_insert _ taro), (keyed_by_name_insert _ hanako),
    (keyed_by_name_insert _ jiro), keyed_by_name_empty.
Defined.

Lemma rank_match_count_bounds_witness :
  let r := {| name := "Taro"; description := "Python and AWS, then sales";
              tags := ["Python"; "AWS"; "Sales"];
              match_count := 1; matched_keywords := ["Python"] |} in
  1 ≤ match_count r
  ∧ match_count r ≤ length ["Python"; "Java"]
  ∧ match_count r ≤ length (tags r)
  ∧ match_count r = length (matched_keywords r)
  ∧ NoDup (matched_keywords r)
  ∧ (∀ t, t ∈ matched_keywords r → t ∈ ["Python"; "Java"] ∧ t ∈ tags r).
Proof.
  apply (proj1 (rank_match_count_bounds ["Python"; "Java"] [taro])).
  vm_compute. left.
Defined.

(** * Further properties of the record store *)

Lemma elem_of_list_all m d : d ∈ list_all m ↔ ∃ id, m !! id = Some d.
Proof.
  unfold list_all. rewrite list_elem_of_fmap. split.
  - intros ([id d'] & -> & Hin). exists id. by apply elem_of_map_to_list.
  - intros [id Hid]. exists (id, d). split; [done|]. by apply elem_of_map_to_list.
Qed.

(** A record saved under a name without ['/'] is found by the next search
    that shares a tag with it: an entry with the name, the description and
    the tags that were saved, the number of distinct shared tags as its
    count, and the shared tags, each once, as its keywords; a search that
    shares no tag with it does not list its name. *)
Theorem save_then_search
    (emp_name emp_description : string) (emp_tags : list string)
    (structured_description : string) (search_tags : list string)
    (env : Env) (w : World) :
  count_slashes emp_name = 0 →
  firestore_fault env (length (requests w)) = None →
  firestore_fault env (length (requests w) + 1) = None →
  let w' := (save_employee_data emp_name emp_description emp_tags structured_description env w).2 in
  let overlap : gset string := list_to_set search_tags ∩ list_to_set emp_tags in
  ∃ results,
    (search_employees_by_tags search_tags env w').1 = inr results
    ∧ ((∃ t, t ∈ search_tags ∧ t ∈ emp_tags) →
       ∃ r, r ∈ results
            ∧ name r = emp_name ∧ description r = emp_description
            ∧ tags r = emp_tags ∧ match_count r = size overlap
            ∧ NoDup (matched_keywords r)
            ∧ (∀ t, t ∈ matched_keywords r ↔ t ∈ search_tags ∧ t ∈ emp_tags))
    ∧ (keyed_by_name (employees w) →
       (∀ t, t ∈ search_tags → t ∉ emp_tags) →
       emp_name ∉ name <$> results).
Proof.
  intros Hplain Hsave Hsearch w' overlap. subst w'.
  rewrite (save_employee_data_run_plain _ _ _ _ _ _ Hplain). simpl.
  rewrite Hsave. simpl.
  rewrite search_employees_by_tags_run. simpl.
  rewrite length_app. simpl. rewrite Hsearch.
  eexists. split; [done|]. split.
  - intros (t & Htq & Htd).
    eexists. split.
    { apply elem_of_rank.
      exists (stored emp_name emp_description emp_tags structured_description
                (server_clock env (length (requests w)))).
      split.
      { apply elem_of_list_all. exists emp_name. apply lookup_insert_eq. }
      apply match_doc_Some. split; [|done]. simpl.
      assert (t ∈ overlap) as Ht.
      { unfold overlap. by rewrite elem_of_intersection, !elem_of_list_to_set. }
      fold overlap. destruct (size overlap) eqn:Hsize; [|lia].
      apply size_empty_iff in Hsize. by apply Hsize in Ht. }
    simpl. split_and!; [done..|apply NoDup_elements|].
    intros t'. by rewrite elem_of_elements, elem_of_intersection, !elem_of_list_to_set.
  - intros Hm Hdisjoint (r & -> & Hr)%list_elem_of_fmap.
    apply elem_of_rank in Hr as (d & Hd & Hr).
    apply match_doc_Some in Hr as [Hpos ->]. simpl in *.
    apply elem_of_list_all in Hd as [id Hid].
    assert (d = stored (doc_name d) emp_description emp_tags structured_description
                  (server_clock env (length (requests w)))) as Hd.
    { rewrite lookup_insert in Hid. case_decide as Hname.
      - by injection Hid as <-.
      - apply Hm in Hid. congruence. }
    rewrite Hd in Hpos. simpl in Hpos.
    apply size_pos_elem_of in Hpos as [t Ht].
    apply elem_of_intersection in Ht as [Hq Ht].
    rewrite elem_of_list_to_set in Hq, Ht. by apply (Hdisjoint t).
Qed.

Lemma save_then_search_witness :
  let w' := (save_employee_data "Jiro" "Java and Python" ["Java"; "Python"; "Go"]
               "- Java" all_up taro_world).2 in
  (∃ results r,
     (search_employees_by_tags ["Python"; "Go"; "Rust"] all_up w').1 = inr results
     ∧ length results = 2
     ∧ r ∈ results ∧ name r = "Jiro" ∧ match_count r = 2
     ∧ (∀ t, t ∈ matched_keywords r ↔ t ∈ ["Python"; "Go"; "Rust"]
                                      ∧ t ∈ ["Java"; "Python"; "Go"]))
  ∧ (∃ results,
       (search_employees_by_tags ["AWS"; "Rust"] all_up w').1 = inr results
       ∧ length results = 1
       ∧ "Jiro" ∉ name <$> results).
Proof.
  split.
  - destruct (save_then_search "Jiro" "Java and Python" ["Java"; "Python"; "Go"]
                "- Java" ["Python"; "Go"; "Rust"] all_up taro_world
                eq_refl eq_refl eq_refl)
      as (results & Hres & Hin & _).
    destruct Hin as (r & Hr & Hn & _ & _ & Hc & _ & Hk).
    { exists "Python". split; [by left|by right; left]. }
    exists results, r. split; [exact Hres|].
    split.
    { pose proof Hres as Hlist. vm_compute in Hlist. by injection Hlist as <-. }
    split; [exact Hr|]. split; [exact Hn|]. split; [exact Hc|exact Hk].
  - destruct (save_then_search "Jiro" "Java and Python" ["Java"; "Python"; "Go"]
                "- Java" ["AWS"; "Rust"] all_up taro_world eq_refl eq_refl eq_refl)
      as (results & Hres & _ & Hout).
    exists results. split; [exact Hres|].
    split.
    { pose proof Hres as Hlist. vm_compute in Hlist. by injection Hlist as <-. }
    apply Hout.
    + apply (keyed_by_name_insert ∅ taro), keyed_by_name_empty.
    + intros t Ht. apply list_elem_of_In in Ht.
      destruct Ht as [<-|[<-|[]]]; apply (bool_decide_unpack _); vm_compute; exact I.
Defined.

Lemma register_form_skipped submitted name_input desc_input env w :
  submitted && truthy name_input && truthy desc_input = false →
  register_form submitted name_input desc_input env w = (inr (), w).
Proof. unfold register_form. by intros ->. Qed.

(** Whatever Gemini and Firestore do, the three writers and readers keep a
    collection keyed by name keyed by name. *)
Theorem keyed_by_name_preserved (env : Env) (w : World) :
  keyed_by_name (employees w) →
  (∀ name description tags structured_description,
     keyed_by_name
       (employees (save_employee_data name description tags structured_description
                     env w).2))
  ∧ (∀ search_tags, keyed_by_name (employees (search_employees_by_tags search_tags env w).2))
  ∧ (∀ submitted name_input desc_input,
       keyed_by_name (employees (register_form submitted name_input desc_input env w).2)).
Proof.
  intros Hm. split_and!.
  - intros name description tags sd. rewrite save_employee_data_run. cbv zeta.
    destruct (Nat.even _); [|done].
    destruct (firestore_fault _ _); [done|].
    by apply (keyed_by_name_put_document
                (stored name description tags sd _) (send _ w)).
  - intros search_tags. rewrite search_employees_by_tags_run.
    by destruct (firestore_fault _ _).
  - intros submitted name_input desc_input.
    destruct (submitted && truthy name_input && truthy desc_input) eqn:Hguard;
      [|by rewrite register_form_skipped].
    apply andb_prop in Hguard as [[-> Hname]%andb_prop Hdesc].
    apply bool_decide_eq_true in Hname, Hdesc.
    pose proof (register_form_run_path name_input desc_input env w Hname Hdesc) as Hrun.
    cbv zeta in Hrun.
    destruct (Nat.even _);
      [destruct (firestore_fault env (length (requests w) + 2)),
         (firestore_fault env (length (requests w) + 3))|];
      destruct Hrun as (_ & -> & _); try done;
      by apply (keyed_by_name_put_document (stored name_input desc_input _ _ _) w).
Qed.

Lemma keyed_by_name_preserved_witness :
  keyed_by_name
    (employees (register_form true "Jiro" "Java and Python" all_up taro_world).2).
Proof.
  apply (keyed_by_name_preserved all_up taro_world).
  apply (keyed_by_name_insert ∅ taro), keyed_by_name_empty.
Defined.

(** * Further properties of the two pages *)

Lemma world_eq w1 w2 :
  employees w1 = employees w2 → subcollections w1 = subcollections w2 →
  requests w1 = requests w2 → page w1 = page w2 →
  w1 = w2.
Proof. destruct w1, w2. simpl. by intros -> -> -> ->. Qed.

Lemma show_result_run i emp env w :
  show_result i emp env w = (inr (), render_all (show_events i emp) w).
Proof.
  unfold show_result, st, mbind, M_bind. cbn beta iota. f_equal.
  apply world_eq; [done..|]. simpl. by rewrite <-!(assoc_L (++)).
Qed.

Lemma for_enumerate_run i (l : list Result) env w :
  for_enumerate show_result i l env w
  = (inr (), render_all (concat (imap (λ j, show_events (i + j)) l)) w).
Proof.
  revert i w. induction l as [|emp l IH]; intros i w.
  - simpl. unfold mret, M_ret. f_equal. apply world_eq; [done..|].
    simpl. by rewrite (right_id_L [] (++)).
  - cbn [for_enumerate]. rewrite bind_run, show_result_run. cbn beta iota.
    rewrite IH. f_equal.
    apply world_eq; [done..|]. cbn [page render_all].
    rewrite imap_cons, concat_cons, Nat.add_0_r, <-(assoc_L (++)). do 3 f_equal.
    apply imap_ext. intros j emp' _. cbn. f_equal. lia.
Qed.

(** The whole run of a search with a query. *)
Lemma skill_search_run search_query env w :
  search_query ≠ "" →
  let n := length (requests w) in
  let reply := gemini env n (tag_prompt search_query) in
  let query_tags := tags_of_reply reply in
  let results := rank query_tags (list_all (employees w)) in
  let w' :=
    send collection_stream
      (render (st_info ("検索キーワード: " ++ join ", " query_tags))
         (report "Gemini API Error: " reply
            (send (generate_content (tag_prompt search_query))
               (render (st_spinner "Geminiが検索意図を解析し、DBと照合中...") w)))) in
  skill_search true search_query env w
  = match firestore_fault env (n + 1) with
    | Some e => (inl e, w')
    | None =>
        (inr (),
         match results with
         | [] => render (st_warning "条件に一致する社員は見つかりませんでした。") w'
         | _ :: _ =>
             render_all (concat (imap show_events results))
               (render (st_subheader ("マッチした社員: " ++ pretty (length results) ++ "名")) w')
         end)
    end.
Proof.
  intros Hq n reply query_tags results w'.
  unfold skill_search. rewrite (truthy_true _ Hq). cbn [andb].
  rewrite bind_run. unfold st at 1. cbn beta iota.
  rewrite bind_run, extract_tags_with_gemini_run. cbn beta iota zeta.
  rewrite bind_run. unfold st at 1. cbn beta iota.
  rewrite bind_run, search_employees_by_tags_run. norm_goal.
  fold n reply query_tags w'.
  destruct (firestore_fault env (n + 1)) as [e|]; [done|]. cbn beta iota.
  rewrite ?employees_report. cbn [employees render send]. fold results.
  clearbody results. destruct results as [|emp results']; [done|].
  rewrite bind_run. unfold st at 1. cbn beta iota.
  by rewrite for_enumerate_run.
Qed.

Lemma page_report label reply w :
  page (report label reply w) = (page w ++ report_events label reply)%list.
Proof. destruct reply; simpl; [done|]. by rewrite (right_id_L [] (++)). Qed.

Lemma skill_search_skipped search_btn search_query env w :
  search_btn && truthy search_query = false →
  skill_search search_btn search_query env w = (inr (), w).
Proof. unfold skill_search. by intros ->. Qed.

(** The search page never writes and the registration form never reads:
    whatever the inputs and whatever Gemini and Firestore do, the search
    leaves the collection as it was and sends no document write, and the
    form sends no stream request; and a search page without a pressed button
    or without a query sends nothing at all. *)
Theorem pages_read_or_write (env : Env) (w : World) :
  (∀ search_btn search_query,
     let r := skill_search search_btn search_query env w in
     employees r.2 = employees w
     ∧ ∃ new, requests r.2 = (requests w ++ new)%list
              ∧ Forall (λ rq, is_write rq = false) new)
  ∧ (∀ submitted name_input desc_input,
       let r := register_form submitted name_input desc_input env w in
       ∃ new, requests r.2 = (requests w ++ new)%list
              ∧ Forall (λ rq, is_read rq = false) new)
  ∧ (∀ search_btn search_query,
       search_btn = false ∨ search_query = "" →
       skill_search search_btn search_query env w = (inr (), w)).
Proof.
  split_and!.
  - intros search_btn search_query r. subst r.
    destruct (search_btn && truthy search_query) eqn:Hguard.
    + apply andb_prop in Hguard as [-> Hq]. apply bool_decide_eq_true in Hq.
      rewrite (skill_search_run _ env w Hq). cbv zeta.
      destruct (firestore_fault _ _) as [e|]; cbn [fst snd].
      * norm_goal. split; [done|]. eexists [_; _].
        split; [by rewrite <-(assoc_L (++))|]. by repeat constructor.
      * destruct (rank _ _); norm_goal.
        -- split; [done|]. eexists [_; _].
           split; [by rewrite <-(assoc_L (++))|]. by repeat constructor.
        -- cbn [employees requests render_all]. norm_goal.
           split; [done|]. eexists [_; _].
           split; [by rewrite <-(assoc_L (++))|]. by repeat constructor.
    + rewrite skill_search_skipped by done. split; [done|].
      exists []. by rewrite (right_id_L [] (++)).
  - intros submitted name_input desc_input r. subst r.
    destruct (submitted && truthy name_input && truthy desc_input) eqn:Hguard.
    + apply andb_prop in Hguard as [[-> Hname]%andb_prop Hdesc].
      apply bool_decide_eq_true in Hname, Hdesc.
      pose proof (register_form_run_path name_input desc_input env w Hname Hdesc) as Hrun.
      cbv zeta in Hrun.
      destruct (Nat.even _);
        [destruct (firestore_fault env (length (requests w) + 2)),
           (firestore_fault env (length (requests w) + 3))|];
        (destruct Hrun as (_ & _ & _ & Hrun & _) || destruct Hrun as (_ & _ & _ & Hrun));
        eexists; (split; [exact Hrun|]); cbn [app]; by repeat constructor.
    + rewrite register_form_skipped by done.
      exists []. by rewrite (right_id_L [] (++)).
  - intros search_btn search_query [->| ->]; apply skill_search_skipped; [done|].
    apply andb_false_r.
Qed.

(** A search that Firestore serves ends normally after two requests, and
    the page shows, after the spinner, the Gemini error if there was one,
    and the keywords: either the no-match warning, or the number of matches
    and then the entries, each under a title with its rank from 1 and its
    count.  The entries shown are those of the ranking, the larger counts
    first; which of two entries with one count comes first, and in which
    order an entry lists its keywords, is left open. *)
Theorem skill_search_presents (search_query : string) (env : Env) (w : World) :
  search_query ≠ "" →
  firestore_fault env (length (requests w) + 1) = None →
  let reply := gemini env (length (requests w)) (tag_prompt search_query) in
  let query_tags := tags_of_reply reply in
  let results := rank query_tags (list_all (employees w)) in
  let r := skill_search true search_query env w in
  ∃ shown ranked,
    ranked ≡ₚ results
    ∧ Forall2 entry_sim shown ranked
    ∧ StronglySorted (λ r1 r2, match_count r2 ≤ match_count r1) shown
    ∧ r.1 = inr ()
    ∧ requests r.2
      = (requests w ++ [generate_content (tag_prompt search_query);
                        collection_stream])%list
    ∧ page r.2
      = (page w
         ++ [st_spinner "Geminiが検索意図を解析し、DBと照合中..."]
         ++ report_events "Gemini API Error: " reply
         ++ [st_info ("検索キーワード: " ++ join ", " query_tags)]
         ++ match shown with
            | [] => [st_warning "条件に一致する社員は見つかりませんでした。"]
            | _ :: _ =>
                st_subheader ("マッチした社員: " ++ pretty (length shown) ++ "名")
                :: concat (imap show_events shown)
            end)%list.
Proof.
  intros Hq Hok reply query_tags results r. subst r.
  exists results, results. split; [done|].
  split; [by apply Forall_Forall2_diag, Forall_forall|].
  split; [apply sort_desc_sorted|].
  rewrite (skill_search_run _ env w Hq). cbv zeta. rewrite Hok.
  fold reply query_tags results. cbn [fst snd].
  split; [done|]. clearbody results. destruct results as [|emp results'].
  - norm_goal. rewrite page_report. cbn [page render send].
    split; [by rewrite <-(assoc_L (++))|].
    by rewrite <-!(assoc_L (++)).
  - cbn [requests page render_all]. norm_goal. rewrite page_report.
    cbn [page render send].
    split; [by rewrite <-(assoc_L (++))|].
    by rewrite <-!(assoc_L (++)).
Qed.

Lemma skill_search_presents_witness :
  let r := skill_search true "Python or Java people" asks_python_java staff_world in
  ∃ shown,
    length shown = 3
    ∧ StronglySorted (λ r1 r2, match_count r2 ≤ match_count r1) shown
    ∧ r.1 = inr ()
    ∧ requests r.2
      = [generate_content (tag_prompt "Python or Java people"); collection_stream]
    ∧ page r.2
      = ([st_spinner "Geminiが検索意図を解析し、DBと照合中...";
          st_info "検索キーワード: Python, Java";
          st_subheader "マッチした社員: 3名"]
         ++ concat (imap show_events shown))%list.
Proof.
  destruct (skill_search_presents "Python or Java people" asks_python_java staff_world)
    as (shown & ranked & Hperm & Hsim & Hsorted & Hr & Hreq & Hpage);
    [discriminate|reflexivity|].
  assert (length shown = 3) as Hlen.
  { rewrite (Forall2_length _ _ _ Hsim), (Permutation_length Hperm). reflexivity. }
  exists shown. split; [exact Hlen|]. split; [exact Hsorted|].
  split; [exact Hr|]. split; [exact Hreq|].
  rewrite Hpage. destruct shown as [|emp shown']; [discriminate Hlen|].
  rewrite Hlen. reflexivity.
Defined.

(** When Gemini fails during a search, the page shows the error, an empty
    keyword line and the no-match warning: the collection is still read,
    and the search ends normally. *)
Theorem skill_search_gemini_down
    (search_query : string) (env : Env) (w : World) (e : Exception) :
  search_query ≠ "" →
  gemini env (length (requests w)) (tag_prompt search_query) = inl e →
  firestore_fault env (length (requests w) + 1) = None →
  let r := skill_search true search_query env w in
  r.1 = inr ()
  ∧ requests r.2
    = (requests w ++ [generate_content (tag_prompt search_query); collection_stream])%list
  ∧ page r.2
    = (page w ++ [st_spinner "Geminiが検索意図を解析し、DBと照合中...";
                  st_error ("Gemini API Error: " ++ exn_message e);
                  st_info "検索キーワード: ";
                  st_warning "条件に一致する社員は見つかりませんでした。"])%list.
Proof.
  intros Hq He Hok r. subst r.
  rewrite (skill_search_run _ env w Hq). cbv zeta. rewrite Hok, He.
  cbn [tags_of_reply fst snd]. 
  assert (rank [] (list_all (employees w)) = []) as ->.
  { unfold rank, matches. induction (list_all _) as [|d docs IH]; [done|].
    csimpl. by rewrite match_doc_empty_query. }
  norm_goal. cbn [report page render send].
  split; [done|]. split; by rewrite <-!(assoc_L (++)).
Qed.

Lemma skill_search_gemini_down_witness :
  let r := skill_search true "cloud and sales" extraction_down taro_world in
  r.1 = inr ()
  ∧ requests r.2 = [generate_content (tag_prompt "cloud and sales"); collection_stream]
  ∧ page r.2
    = [st_spinner "Geminiが検索意図を解析し、DBと照合中...";
       st_error "Gemini API Error: 429 quota exceeded";
       st_info "検索キーワード: ";
       st_warning "条件に一致する社員は見つかりませんでした。"].
Proof.
  apply (skill_search_gemini_down "cloud and sales" extraction_down taro_world
           quota_exceeded); [discriminate|reflexivity|reflexivity].
Defined.

Lemma pages_read_or_write_witness :
  employees (skill_search true "cloud engineers" asks_aws taro_world).2
  = employees taro_world
  ∧ skill_search true "" asks_aws taro_world = (inr (), taro_world).
Proof.
  destruct (pages_read_or_write asks_aws taro_world) as (Hsearch & _ & Hidle).
  split.
  - apply (Hsearch true "cloud engineers").
  - apply Hidle. right. reflexivity.
Defined.

(** * Further properties of the registration *)

(** When Firestore serves the first write of a registration, under a name
    without ['/'], and fails the second, the handler raises although the
    record is stored (with the time of the first write) and the first
    success message is on the page; the final success message is never
    rendered. *)
Theorem register_form_second_write_fails
    (name_input desc_input : string) (env : Env) (w : World) (e : Exception) :
  count_slashes name_input = 0 →
  name_input ≠ "" → desc_input ≠ "" →
  firestore_fault env (length (requests w) + 2) = None →
  firestore_fault env (length (requests w) + 3) = Some e →
  let n := length (requests w) in
  let reply1 := gemini env n (tag_prompt desc_input) in
  let reply2 := gemini env (n + 1) (structure_prompt desc_input) in
  let extracted_tags := tags_of_reply reply1 in
  let structured_desc := profile_of_reply reply2 in
  let r := register_form true name_input desc_input env w in
  r.1 = inl e
  ∧ employees r.2
    = <[name_input := stored name_input desc_input extracted_tags structured_desc
                        (server_clock env (n + 2))]> (employees w)
  ∧ page r.2
    = (page w
       ++ [st_spinner "Geminiがテキストを解析中..."]
       ++ report_events "Gemini API Error: " reply1
       ++ report_events "Gemini API Error (Structure): " reply2
       ++ [st_subheader "🤖 AIが抽出したタグ";
           st_success ("**" ++ name_input ++ "** さんの情報をデータベースに登録/更新しました！");
           st_markdown "---";
           st_subheader "タグ付け結果";
           st_write (join ", " extracted_tags);
           st_subheader "構造化されたプロフィール (格納形式)";
           st_markdown structured_desc])%list.
Proof.
  intros Hplain Hname Hdesc H2 H3 n reply1 reply2 extracted_tags structured_desc r.
  subst r structured_desc extracted_tags reply2 reply1 n.
  rewrite (register_form_world _ _ _ _ Hname Hdesc).
  rewrite (document_path_plain _ Hplain). cbn [length Nat.even].
  rewrite H2. cbv zeta. rewrite H3. cbn [fst snd put_document]. norm_goal.
  split; [done|]. split; [done|].
  repeat (rewrite page_report; cbn [page render send store]).
  by rewrite <-!(assoc_L (++)).
Qed.

Lemma register_form_second_write_fails_witness :
  let r := register_form true "Jiro" "Java and Python" second_write_down taro_world in
  r.1 = inl unavailable
  ∧ employees r.2
    = <["Jiro" := stored "Jiro" "Java and Python" ["Java"; "Python"] "Java, Python" 12]>
        (employees taro_world)
  ∧ page r.2
    = [st_spinner "Geminiがテキストを解析中...";
       st_subheader "🤖 AIが抽出したタグ";
       st_success "**Jiro** さんの情報をデータベースに登録/更新しました！";
       st_markdown "---";
       st_subheader "タグ付け結果";
       st_write "Java, Python";
       st_subheader "構造化されたプロフィール (格納形式)";
       st_markdown "Java, Python"].
Proof.
  apply (register_form_second_write_fails "Jiro" "Java and Python"
           second_write_down taro_world unavailable);
    [reflexivity|discriminate|discriminate|reflexivity|reflexivity].
Defined.

(** Registering a name again replaces the record as a whole: after two
    registrations under one name without ['/'] that Firestore serves, the
    collection is what the second registration alone would have left, and
    nothing of the first description, tags or profile remains. *)
Theorem register_form_again
    (name_input desc1 desc2 : string) (env : Env) (w : World) :
  count_slashes name_input = 0 →
  name_input ≠ "" → desc1 ≠ "" → desc2 ≠ "" →
  let n := length (requests w) in
  firestore_fault env (n + 2) = None → firestore_fault env (n + 3) = None →
  firestore_fault env (n + 6) = None → firestore_fault env (n + 7) = None →
  let w1 := (register_form true name_input desc1 env w).2 in
  let r := register_form true name_input desc2 env w1 in
  let extracted_tags := tags_of_reply (gemini env (n + 4) (tag_prompt desc2)) in
  let structured_desc := profile_of_reply (gemini env (n + 5) (structure_prompt desc2)) in
  r.1 = inr ()
  ∧ employees r.2
    = <[name_input := stored name_input desc2 extracted_tags structured_desc
                        (server_clock env (n + 7))]> (employees w)
  ∧ (keyed_by_name (employees w) →
     length (filter (λ d, doc_name d = name_input) (list_all (employees r.2))) = 1).
Proof.
  intros Hplain Hname Hdesc1 Hdesc2 n H2 H3 H6 H7 w1 r extracted_tags structured_desc.
  pose proof (register_form_run name_input desc1 env w Hplain Hname Hdesc1) as Hrun1.
  cbv zeta in Hrun1. fold n in Hrun1. rewrite H2, H3 in Hrun1. fold w1 in Hrun1.
  destruct Hrun1 as (_ & Hemp1 & Hreq1 & _).
  assert (length (requests w1) = n + 4) as Hlen.
  { rewrite Hreq1, length_app. done. }
  pose proof (register_form_run name_input desc2 env w1 Hplain Hname Hdesc2) as Hrun2.
  cbv zeta in Hrun2. rewrite Hlen in Hrun2.
  replace (n + 4 + 1) with (n + 5) in Hrun2 by lia.
  replace (n + 4 + 2) with (n + 6) in Hrun2 by lia.
  replace (n + 4 + 3) with (n + 7) in Hrun2 by lia.
  rewrite H6, H7 in Hrun2. cbv zeta in Hrun2. fold r in Hrun2.
  destruct Hrun2 as (Hres & Hemp2 & _).
  rewrite Hemp1, insert_insert_eq in Hemp2.
  split; [done|]. split; [done|]. intros Hm. rewrite Hemp2.
  apply (list_all_insert_one (employees w) (stored name_input desc2 _ _ _) Hm).
Qed.

Lemma register_form_again_witness :
  let w1 := (register_form true "Alice" "sales in Osaka" first_then_second empty_world).2 in
  let r := register_form true "Alice" "backend in Tokyo" first_then_second w1 in
  r.1 = inr ()
  ∧ employees r.2
    = <["Alice" := stored "Alice" "backend in Tokyo" ["Go"; "Tokyo"] "- Go" 17]> ∅
  ∧ length (filter (λ d, doc_name d = "Alice") (list_all (employees r.2))) = 1.
Proof.
  destruct (register_form_again "Alice" "sales in Osaka" "backend in Tokyo"
              first_then_second empty_world)
    as (Hres & Hemp & Hone);
    [reflexivity|discriminate|discriminate|discriminate|reflexivity..|].
  split; [exact Hres|]. split; [exact Hemp|].
  apply Hone, keyed_by_name_empty.
Defined.

(** A registration only ever touches the record of its own name: whatever
    the inputs and whatever Gemini and Firestore do, every other record is
    as it was, and a record that existed under the name still exists. *)
Theorem register_form_other_records
    (submitted : bool) (name_input desc_input : string) (env : Env) (w : World) :
  let r := register_form submitted name_input desc_input env w in
  (∀ id, id ≠ name_input → employees r.2 !! id = employees w !! id)
  ∧ (is_Some (employees w !! name_input) → is_Some (employees r.2 !! name_input)).
Proof.
  intros r. subst r.
  destruct (submitted && truthy name_input && truthy desc_input) eqn:Hguard;
    [|by rewrite register_form_skipped].
  apply andb_prop in Hguard as [[-> Hname]%andb_prop Hdesc].
  apply bool_decide_eq_true in Hname, Hdesc.
  pose proof (register_form_run_path name_input desc_input env w Hname Hdesc) as Hrun.
  cbv zeta in Hrun.
  destruct (Nat.even _);
    [destruct (firestore_fault env (length (requests w) + 2)),
       (firestore_fault env (length (requests w) + 3))|];
    destruct Hrun as (_ & -> & _); try done;
    rewrite employees_put_document_path; case_decide; try done;
    (split; [by intros id Hid; rewrite lookup_insert_ne|]);
    intros _; rewrite lookup_insert_eq; by eexists.
Qed.

Lemma register_form_other_records_witness :
  employees (register_form true "Jiro" "Java and Python" all_up taro_world).2 !! "Taro"
  = employees taro_world !! "Taro".
Proof.
  apply (register_form_other_records true "Jiro" "Java and Python" all_up taro_world).
  discriminate.
Defined.

(** What a write does is decided by the number of ['/'] in the name.  With
    an odd number the client raises before any request, and the world is as
    it was.  With an even number the write is sent, and when Firestore
    serves it the record is the document at the path of the name: for a
    name with ['/'] that is not a document of the collection, which is as it
    was. *)
Theorem save_employee_data_by_path
    (name description : string) (tags : list string)
    (structured_description : string) (env : Env) (w : World) :
  let r := save_employee_data name description tags structured_description env w in
  let data :=
    {| doc_name := name; doc_description := description;
       doc_structured_description := structured_description;
       doc_tags := tags; doc_updated_at := SERVER_TIMESTAMP |} in
  (Nat.even (count_slashes name) = false → r = (inl invalid_document_path, w))
  ∧ (Nat.even (count_slashes name) = true →
     requests r.2 = (requests w ++ [document_set (document_path name) data])%list
     ∧ (firestore_fault env (length (requests w)) = None →
        r.1 = inr ()
        ∧ document_at r.2 (document_path name)
          = Some (stored name description tags structured_description
                    (server_clock env (length (requests w))))
        ∧ (count_slashes name ≠ 0 → employees r.2 = employees w))).
Proof.
  intros r data. subst r data. rewrite save_employee_data_run. cbv zeta.
  rewrite document_path_length. cbn [Nat.add Nat.even].
  split; [by intros ->|]. intros ->.
  destruct (firestore_fault _ _) as [e|]; cbn [fst snd]; norm_goal;
    (split; [done|]); [done|].
  intros _. split; [done|]. split; [apply document_at_put_document|].
  intros Hnested. rewrite put_document_nested; [done|].
  rewrite document_path_length. lia.
Qed.

Lemma save_employee_data_by_path_witness :
  save_employee_data "Sales/Taro" "Java now" ["Java"] "- Java" all_up taro_world
  = (inl invalid_document_path, taro_world)
  ∧ (let r := save_employee_data "Tokyo/Sales/Taro" "Java now" ["Java"] "- Java"
                all_up taro_world in
     r.1 = inr ()
     ∧ subcollections r.2 !! ["employees"; "Tokyo"; "Sales"; "Taro"]
       = Some (stored "Tokyo/Sales/Taro" "Java now" ["Java"] "- Java" 10)
     ∧ employees r.2 = employees taro_world).
Proof.
  split.
  - apply (save_employee_data_by_path "Sales/Taro" "Java now" ["Java"] "- Java"
             all_up taro_world). reflexivity.
  - destruct (save_employee_data_by_path "Tokyo/Sales/Taro" "Java now" ["Java"]
                "- Java" all_up taro_world) as [_ Hsent].
    destruct (Hsent eq_refl) as [_ Hserved].
    destruct (Hserved eq_refl) as (Hr & Hdoc & Hemp).
    split; [exact Hr|]. split; [exact Hdoc|]. apply Hemp. discriminate.
Defined.

(** * Further properties of the tag extraction *)

Lemma string_app_cons a (s1 s2 : string) : String a s1 ++ s2 = String a (s1 ++ s2).
Proof. reflexivity. Qed.

Lemma string_app_assoc (s1 s2 s3 : string) : (s1 ++ s2) ++ s3 = s1 ++ (s2 ++ s3).
Proof. induction s1 as [|a s1 IH]; [done|]. by rewrite !string_app_cons, IH. Qed.

Lemma string_app_nil_r (s : string) : s ++ "" = s.
Proof. induction s as [|a s IH]; [done|]. by rewrite string_app_cons, IH. Qed.

Lemma string_length_app (s1 s2 : string) :
  String.length (s1 ++ s2) = String.length s1 + String.length s2.
Proof.
  induction s1 as [|a s1 IH]; [done|].
  rewrite string_app_cons. simpl. by rewrite IH.
Qed.

Lemma string_rev_app_app (s1 s2 : string) :
  String.rev_app s1 s2 = String.rev_app s1 "" ++ s2.
Proof.
  revert s2. induction s1 as [|a s1 IH]; intros s2; simpl; [done|].
  rewrite (IH (String a s2)), (IH (String a "")).
  by rewrite string_app_assoc.
Qed.

Lemma string_rev_cons a (s : string) : String.rev (String a s) = String.rev s ++ String a "".
Proof. unfold String.rev. simpl. apply string_rev_app_app. Qed.

Lemma string_rev_app (s1 s2 : string) :
  String.rev (s1 ++ s2) = String.rev s2 ++ String.rev s1.
Proof.
  induction s1 as [|a s1 IH].
  - by rewrite string_app_nil_r.
  - by rewrite string_app_cons, !string_rev_cons, IH, string_app_assoc.
Qed.

Lemma string_rev_involutive (s : string) : String.rev (String.rev s) = s.
Proof.
  induction s as [|a s IH]; [done|].
  by rewrite string_rev_cons, string_rev_app, IH.
Qed.

Lemma string_length_ind (P : string → Prop) :
  (∀ s, (∀ s', String.length s' < String.length s → P s') → P s) → ∀ s, P s.
Proof.
  intros Hind s. remember (String.length s) as n eqn:Hn. revert s Hn.
  induction n as [n IH] using lt_wf_ind. intros s ->.
  apply Hind. intros s' Hlt. by apply (IH _ Hlt).
Qed.

Lemma skip_spaces_unfold back s :
  skip_spaces back s
  = match leading_space back s with
    | Some s' => skip_spaces back s'
    | None => s
    end.
Proof.
  destruct s as [|c1 s1]; [done|]. cbn [skip_spaces leading_space].
  destruct (is_space1 c1); [done|].
  destruct s1 as [|c2 s2]; [done|].
  destruct (if back then is_space2 c2 c1 else is_space2 c1 c2); [done|].
  destruct s2 as [|c3 s3]; [done|].
  by destruct (if back then is_space3 c3 c2 c1 else is_space3 c1 c2 c3).
Qed.

Lemma leading_space_split back s s' :
  leading_space back s = Some s' → ∃ q, q ≠ "" ∧ s = q ++ s'.
Proof.
  destruct s as [|c1 [|c2 [|c3 s3]]]; cbn [leading_space]; intros Hs;
    repeat case_match; simplify_eq;
    first [ by exists (String c1 "")
          | by exists (String c1 (String c2 ""))
          | by exists (String c1 (String c2 (String c3 ""))) ].
Qed.

Lemma leading_space_app back s s' z :
  leading_space back s = Some s' → leading_space back (s ++ z) = Some (s' ++ z).
Proof.
  destruct s as [|c1 [|c2 [|c3 s3]]]; rewrite ?string_app_cons;
    cbn [leading_space]; intros Hs; repeat case_match; simplify_eq; done.
Qed.

Lemma leading_space_length back s s' :
  leading_space back s = Some s' → String.length s' < String.length s.
Proof.
  intros (q & Hq & ->)%leading_space_split. rewrite string_length_app.
  destruct q; [done|]. simpl. lia.
Qed.

(** What [skip_spaces] returns has no white space at its front, and is the
    rest of [s] behind a prefix. *)
Lemma skip_spaces_done back s : leading_space back (skip_spaces back s) = None.
Proof.
  induction s as [s IH] using string_length_ind.
  rewrite skip_spaces_unfold.
  destruct (leading_space back s) as [s'|] eqn:Hs; [|done].
  by apply IH, (leading_space_length back).
Qed.

Lemma skip_spaces_suffix back s : ∃ p, s = p ++ skip_spaces back s.
Proof.
  induction s as [s IH] using string_length_ind.
  rewrite skip_spaces_unfold.
  destruct (leading_space back s) as [s'|] eqn:Hs; [|by exists ""].
  destruct (IH s' (leading_space_length _ _ _ Hs)) as [p Hp].
  apply leading_space_split in Hs as (q & _ & ->).
  exists (q ++ p). by rewrite string_app_assoc, <-Hp.
Qed.

Lemma skip_spaces_fixed back s : leading_space back s = None → skip_spaces back s = s.
Proof. intros Hs. by rewrite skip_spaces_unfold, Hs. Qed.

Lemma strip_front t : leading_space false (strip t) = None.
Proof.
  unfold strip. set (u := skip_spaces false t).
  destruct (skip_spaces_suffix true (String.rev u)) as [p Hp].
  set (v := skip_spaces true (String.rev u)) in *.
  destruct (leading_space false (String.rev v)) as [x|] eqn:Hx; [|done].
  apply (leading_space_app _ _ _ (String.rev p)) in Hx.
  rewrite <-string_rev_app, <-Hp, string_rev_involutive in Hx.
  unfold u in Hx. by rewrite skip_spaces_done in Hx.
Qed.

Lemma strip_back t : leading_space true (String.rev (strip t)) = None.
Proof. unfold strip. rewrite string_rev_involutive. apply skip_spaces_done. Qed.

Lemma strip_strip t : strip (strip t) = strip t.
Proof.
  unfold strip at 1.
  rewrite (skip_spaces_fixed false (strip t)) by apply strip_front.
  rewrite (skip_spaces_fixed true (String.rev (strip t))) by apply strip_back.
  apply string_rev_involutive.
Qed.

Lemma count_commas_app (s1 s2 : string) :
  count_commas (s1 ++ s2) = count_commas s1 + count_commas s2.
Proof.
  induction s1 as [|a s1 IH]; [done|].
  rewrite string_app_cons. simpl. rewrite IH. lia.
Qed.

Lemma count_commas_rev s : count_commas (String.rev s) = count_commas s.
Proof.
  induction s as [|a s IH]; [done|].
  rewrite string_rev_cons, count_commas_app, IH. simpl. lia.
Qed.

Lemma count_commas_skip_spaces back s :
  count_commas (skip_spaces back s) ≤ count_commas s.
Proof.
  destruct (skip_spaces_suffix back s) as [p Hp].
  rewrite Hp at 2. rewrite count_commas_app. lia.
Qed.

Lemma count_commas_strip t : count_commas (strip t) ≤ count_commas t.
Proof.
  unfold strip. rewrite count_commas_rev.
  etrans; [apply count_commas_skip_spaces|]. rewrite count_commas_rev.
  apply count_commas_skip_spaces.
Qed.

Lemma split_comma_cons s : ∃ t ts, split_comma s = t :: ts.
Proof.
  induction s as [|c s (t & ts & IH)]; simpl; [by eexists _, _|].
  case_decide; [by eexists _, _|]. rewrite IH. by eexists _, _.
Qed.

Lemma split_comma_length s : length (split_comma s) = S (count_commas s).
Proof.
  induction s as [|c s IH]; simpl; [done|].
  case_decide; simpl; [by rewrite IH|].
  destruct (split_comma_cons s) as (t & ts & Hs). rewrite Hs in IH |- *. done.
Qed.

Lemma split_comma_join s : join "," (split_comma s) = s.
Proof.
  unfold join. induction s as [|c s IH]; [done|]. simpl.
  destruct (split_comma_cons s) as (t & ts & Hs). rewrite Hs in IH |- *.
  case_decide as Hc.
  - subst c. change (String.concat "," ("" :: t :: ts)) with
      (String "," (String.concat "," (t :: ts))). by rewrite IH.
  - destruct ts as [|u us].
    + simpl in *. by rewrite IH.
    + change (String.concat "," (String c t :: u :: us)) with
        (String c (String.concat "," (t :: u :: us))). by rewrite IH.
Qed.

Lemma split_comma_pieces s : Forall (λ t, count_commas t = 0) (split_comma s).
Proof.
  induction s as [|c s IH]; simpl; [by repeat constructor|].
  case_decide as Hc; [by constructor|].
  destruct (split_comma s) as [|t ts]; [by repeat constructor; simpl; case_decide|].
  apply Forall_cons in IH as [Ht Hts]. constructor; [|done].
  simpl. by rewrite decide_False, Ht by done.
Qed.

(** Splitting on commas loses nothing: the pieces joined by commas are the
    text again, there is one piece more than there are commas, and no piece
    holds a comma. *)
Theorem split_comma_roundtrip (s : string) :
  join "," (split_comma s) = s
  ∧ length (split_comma s) = S (count_commas s)
  ∧ Forall (λ t, count_commas t = 0) (split_comma s).
Proof.
  split; [apply split_comma_join|].
  split; [apply split_comma_length|apply split_comma_pieces].
Qed.

(** [strip] leaves no white space at the front or at the back of what it
    returns, adds no comma, and changes nothing when applied again. *)
Theorem strip_trims (t : string) :
  leading_space false (strip t) = None
  ∧ leading_space true (String.rev (strip t)) = None
  ∧ strip (strip t) = strip t
  ∧ count_commas (strip t) ≤ count_commas t.
Proof.
  split; [apply strip_front|]. split; [apply strip_back|].
  split; [apply strip_strip|apply count_commas_strip].
Qed.

(** [extract_tags_with_gemini] always returns a list, after one request and
    without touching the collection.  The list is empty exactly when the call
    to Gemini failed: a reply, even an empty one, gives one tag more than it
    has commas, and every tag is stripped and free of commas. *)
Theorem extract_tags_shape (text : string) (env : Env) (w : World) :
  let reply := gemini env (length (requests w)) (tag_prompt text) in
  let r := extract_tags_with_gemini text env w in
  ∃ extracted : list string,
    r.1 = inr extracted
    ∧ (extracted = [] ↔ ∃ e, reply = inl e)
    ∧ (∀ response_text, reply = inr response_text →
         length extracted = S (count_commas response_text))
    ∧ (reply = inr "" → extracted = [""])
    ∧ Forall (λ t, strip t = t ∧ count_commas t = 0) extracted
    ∧ requests r.2 = (requests w ++ [generate_content (tag_prompt text)])%list
    ∧ employees r.2 = employees w.
Proof.
  intros reply r. subst r. rewrite extract_tags_with_gemini_run. cbv zeta.
  fold reply. cbn [fst snd]. rewrite requests_report, employees_report.
  exists (tags_of_reply reply). split; [done|].
  destruct reply as [e|response_text]; cbn [tags_of_reply].
  - split; [split; [by exists e|done]|].
    split; [done|]. split; [done|]. split; [by constructor|done].
  - split.
    { split; [|by intros [e ?]].
      intros Hnil. apply (f_equal length) in Hnil.
      by rewrite length_fmap, split_comma_length in Hnil. }
    split.
    { intros ? [= <-]. by rewrite length_fmap, split_comma_length. }
    split; [by intros [= ->]|]. split; [|done].
    apply Forall_fmap. eapply Forall_impl; [apply split_comma_pieces|].
    intros t Ht. cbv beta in Ht |- *. split; [apply strip_strip|].
    pose proof (count_commas_strip t) as Hle. rewrite Ht in Hle. lia.
Qed.

Lemma extract_tags_shape_witness :
  ∃ extracted : list string,
    (extract_tags_with_gemini "Python and AWS, then sales" all_up empty_world).1
    = inr extracted
    ∧ length extracted = 3
    ∧ Forall (λ t, strip t = t ∧ count_commas t = 0) extracted.
Proof.
  destruct (extract_tags_shape "Python and AWS, then sales" all_up empty_world)
    as (extracted & Hres & _ & Hlen & _ & Hall & _).
  exists extracted. split; [exact Hres|]. split; [|exact Hall].
  apply (Hlen "Python, AWS , Sales"). reflexivity.
Defined.
